(** * Kelonio: measurement, threshold verification and the aggregation tree

    A shallow embedding of [src/index.ts].

    Conventions of the model.
    - A JavaScript [number] is a real number ([R]): rounding, NaN and the
      infinities of IEEE arithmetic are outside the model.  Iteration counts
      are integers ([Z]).
    - The functions taken from the [mathjs] package are given by their
      documented mathematical meaning (module [mathjs]).  Module [binary64]
      gives the sum, the mean and the extrema in the arithmetic of the
      program, for the one property that rounding decides.
    - What the host provides (the clock, the conversion of a number to text,
      [mathjs.round], the two banner lines of [./etc]) is a parameter, class
      [Host].
    - An object used as a dictionary is an association list of its own
      properties in the order in which JavaScript lists them (array indices
      first, ascending, then the other keys in insertion order); the names
      inherited from [Object.prototype] are found by [in] as in the code.
    - A thrown value is an [Exn]; a call that may throw returns a [Result]. *)

From Stdlib Require Import Reals Lra Ascii String List ZArith NArith Lia Bool Arith Permutation.
From Stdlib Require PrimFloat Uint63.
Import ListNotations.

Open Scope string_scope.
Open Scope R_scope.

(** ** Exceptions *)

Inductive Exn : Type :=
| Error (message : string)              (* new Error(message) *)
| PerformanceError (message : string)   (* class PerformanceError extends Error *)
| Thrown (what : string)                (* any other value thrown by user code *)
| TypeError.                            (* raised by the engine; the text is the engine's *)

Inductive Result (A : Type) : Type :=
| Ok (a : A)
| Raise (e : Exn).

Arguments Ok {A} a.
Arguments Raise {A} e.

(** ** The statistics of [mathjs] *)

Module mathjs.

Definition sum (xs : list R) : R := fold_left Rplus xs 0.

Definition mean (xs : list R) : R := sum xs / INR (length xs).

Definition min (xs : list R) : R :=
  match xs with
  | [] => 0
  | x :: rest => fold_left Rmin rest x
  end.

Definition max (xs : list R) : R :=
  match xs with
  | [] => 0
  | x :: rest => fold_left Rmax rest x
  end.

(** The default normalisation, "unbiased": the sum of the squared
    deviations over [n - 1], and [0] for a single value. *)
Definition variance (xs : list R) : R :=
  if (length xs =? 1)%nat then 0
  else sum (map (fun x => (x - mean xs) * (x - mean xs)) xs)
       / (INR (length xs) - 1).

Definition sqrt (x : R) : R := R_sqrt.sqrt x.

Definition std (xs : list R) : R := sqrt (variance xs).

End mathjs.

(** The same sum, mean and extrema on binary64 numbers, each operation
    rounded as the processor rounds it. *)
Module binary64.

Definition number : Set := PrimFloat.float.

Definition of_Z (z : Z) : number := PrimFloat.of_uint63 (Uint63.of_Z z).


Definition sum (xs : list number) : number :=
  match xs with
  | [] => of_Z 0
  | x :: rest => fold_left PrimFloat.add rest x
  end.

Definition mean (xs : list number) : number :=
  PrimFloat.div (sum xs) (of_Z (Z.of_nat (length xs))).

Definition min (xs : list number) : number :=
  match xs with
  | [] => of_Z 0
  | x :: rest => fold_left (fun a b => if PrimFloat.ltb b a then b else a) rest x
  end.

Definition max (xs : list number) : number :=
  match xs with
  | [] => of_Z 0
  | x :: rest => fold_left (fun a b => if PrimFloat.ltb a b then b else a) rest x
  end.

End binary64.

(** ** class Measurement *)

Module Measurement.

Record t : Type := make { durations : list R }.

(** The constructor. *)
Definition new (durations : list R) : Result t :=
  if (length durations =? 0)%nat
  then Raise (Error "The list of durations must not be empty")
  else Ok (make durations).

Definition mean (m : t) : R := mathjs.mean (durations m).
Definition min (m : t) : R := mathjs.min (durations m).
Definition max (m : t) : R := mathjs.max (durations m).
Definition standardDeviation (m : t) : R := mathjs.std (durations m).
Definition marginOfError (m : t) : R :=
  mathjs.sqrt (mathjs.variance (durations m) / INR (length (durations m))) * 1.96.

End Measurement.

Abbreviation Measurement := Measurement.t.

(** ** interface BenchmarkData

    An object with one entry per description: its own properties, in the
    order in which [Object.entries] and [Object.keys] list them. *)

Inductive BenchmarkData : Type :=
| Object (entries : list (string * Info))
with Info : Type :=
| mkInfo (durations : list R) (children : BenchmarkData).

Definition entries (data : BenchmarkData) : list (string * Info) :=
  match data with Object es => es end.

Definition durations (info : Info) : list R :=
  match info with mkInfo ds _ => ds end.

Definition children (info : Info) : BenchmarkData :=
  match info with mkInfo _ cs => cs end.

(** The properties every object inherits from [Object.prototype]. *)
Definition inherited (key : string) : bool :=
  existsb (String.eqb key)
    ["constructor"; "__defineGetter__"; "__defineSetter__"; "hasOwnProperty";
     "__lookupGetter__"; "__lookupSetter__"; "isPrototypeOf"; "propertyIsEnumerable";
     "toString"; "valueOf"; "__proto__"; "toLocaleString"].

(** The key is an own property. *)
Fixpoint own_key (key : string) (es : list (string * Info)) : bool :=
  match es with
  | [] => false
  | (k, _) :: rest => if String.eqb key k then true else own_key key rest
  end.

(** [key in data]: an own property or an inherited one. *)
Definition has_key (key : string) (es : list (string * Info)) : bool :=
  own_key key es || inherited key.

(** [data[key]] for an own property.  [None] otherwise: for an inherited
    name the code then holds a member of [Object.prototype], which has
    neither [durations] nor [children]. *)
Fixpoint get (key : string) (es : list (string * Info)) : option Info :=
  match es with
  | [] => None
  | (k, info) :: rest => if String.eqb key k then Some info else get key rest
  end.

(** The value of a decimal digit. *)
Definition digit (c : Ascii.ascii) : option N :=
  let n := Ascii.N_of_ascii c in
  if (48 <=? n)%N && (n <=? 57)%N then Some (n - 48)%N else None.

(** The number written by a string of decimal digits, read after [acc]. *)
Fixpoint decimal (s : string) (acc : N) : option N :=
  match s with
  | EmptyString => Some acc
  | String c rest =>
      match digit c with
      | Some d => decimal rest (10 * acc + d)%N
      | None => None
      end
  end.

(** An array index: the canonical decimal text of an integer from 0 to
    2^32 - 2.  Such keys come first when an object lists its keys. *)
Definition array_index (key : string) : option N :=
  match key with
  | EmptyString => None
  | String c rest =>
      if Ascii.eqb c "0"%char && negb (String.eqb rest "") then None
      else match decimal key 0 with
           | Some n => if (n <? 4294967295)%N then Some n else None
           | None => None
           end
  end.

(** Replace the value of an own property; its place is kept. *)
Fixpoint replace (key : string) (info : Info) (es : list (string * Info))
  : list (string * Info) :=
  match es with
  | [] => []
  | (k, old) :: rest =>
      if String.eqb key k then (k, info) :: rest else (k, old) :: replace key info rest
  end.

(** Place a new array index [n]: before the first key that is a larger
    index or no index at all. *)
Fixpoint place (n : N) (key : string) (info : Info) (es : list (string * Info))
  : list (string * Info) :=
  match es with
  | [] => [(key, info)]
  | (k, old) :: rest =>
      match array_index k with
      | Some m => if (n <? m)%N then (key, info) :: es
                  else (k, old) :: place n key info rest
      | None => (key, info) :: es
      end
  end.

(** [data[key] = info]: an own property keeps its place; a new array index
    goes among the array indices in ascending order, any other new key
    goes last. *)
Definition set (key : string) (info : Info) (es : list (string * Info))
  : list (string * Info) :=
  if own_key key es then replace key info es
  else match array_index key with
       | Some n => place n key info es
       | None => (es ++ [(key, info)])%list
       end.

(** ** Strings *)

Definition newline : string := String (Ascii.ascii_of_nat 10) EmptyString.

(** [s.repeat(n)] *)
Fixpoint repeat_string (s : string) (n : nat) : string :=
  match n with
  | O => ""
  | S n' => s ++ repeat_string s n'
  end.

(** [array.push(x)] *)
Definition push {A : Type} (array : list A) (x : A) : list A := (array ++ [x])%list.

(** [lines.join(sep)] *)
Definition join (lines : list string) (sep : string) : string :=
  String.concat sep lines.

(** ** What the host provides *)

Class Host : Type := {
  (** Everything the measured code can observe or change, the clock included. *)
  Env : Type;
  (** The result of [hrtime()]. *)
  Instant : Type;
  hrtime : Env -> Instant;
  (** [hrtime(start)]: seconds and nanoseconds elapsed since [start]. *)
  hrtime_since : Instant -> Env -> Z * Z;
  (** The text of a number inside a template literal. *)
  number_to_string : R -> string;
  mathjs_round : R -> Z -> R;
  (** The constants of [./etc]. *)
  HEADER : string;
  FOOTER : string
}.

(** ** Asynchronous code

    An asynchronous computation over a state [S] is a finite tree of reads
    and updates of the state, interrupted by suspension points ([Await]).
    Between two suspension points it runs without interruption; at a
    suspension point any other pending computation may run. *)

Inductive Async (S A : Type) : Type :=
| Return (a : A)
| Throw (e : Exn)
| Get (k : S -> Async S A)
| Modify (f : S -> S) (k : Async S A)
| Await (k : Async S A).

Arguments Return {S A} a.
Arguments Throw {S A} e.
Arguments Get {S A} k.
Arguments Modify {S A} f k.
Arguments Await {S A} k.

Fixpoint bind {S A B : Type} (p : Async S A) (f : A -> Async S B) : Async S B :=
  match p with
  | Return a => f a
  | Throw e => Throw e
  | Get k => Get (fun s => bind (k s) f)
  | Modify g k => Modify g (bind k f)
  | Await k => Await (bind k f)
  end.

Declare Scope async_scope.
Delimit Scope async_scope with async.
Notation "x <- p ;; q" := (bind p (fun x => q))
  (at level 61, p at next level, right associativity) : async_scope.
Notation "p ;; q" := (bind p (fun _ => q))
  (at level 61, right associativity) : async_scope.

(** [await p]: run [p], then suspend before going on with its value. *)
Definition await {S A : Type} (p : Async S A) : Async S A :=
  bind p (fun a => Await (Return a)).

(** A computation on the first component of a pair of states. *)
Fixpoint lift {S T A : Type} (p : Async S A) : Async (S * T) A :=
  match p with
  | Return a => Return a
  | Throw e => Throw e
  | Get k => Get (fun st => lift (k (fst st)))
  | Modify g k => Modify (fun st => (g (fst st), snd st)) (lift k)
  | Await k => Await (lift k)
  end.

(** Run to completion, with nothing else running at the suspension points. *)
Fixpoint run {S A : Type} (p : Async S A) (s : S) : S * Result A :=
  match p with
  | Return a => (s, Ok a)
  | Throw e => (s, Raise e)
  | Get k => run (k s) s
  | Modify g k => run k (g s)
  | Await k => run k s
  end.

(** Run up to the next suspension point; what is left is still pending,
    or is settled ([Return], [Throw]). *)
Fixpoint resume {S A : Type} (p : Async S A) (s : S) : S * Async S A :=
  match p with
  | Return a => (s, Return a)
  | Throw e => (s, Throw e)
  | Get k => resume (k s) s
  | Modify g k => resume k (g s)
  | Await k => (s, k)
  end.

(** [for (const call of calls) { await call(); }] *)
Fixpoint serially {S : Type} (calls : list (Async S unit)) : Async S unit :=
  match calls with
  | [] => Return tt
  | call :: rest => bind (await call) (fun _ => serially rest)
  end.

(** [calls.map(x => x())]: every call runs up to its first suspension
    point, in order. *)
Fixpoint start_all {S : Type} (calls : list (Async S unit)) (s : S)
  : S * list (Async S unit) :=
  match calls with
  | [] => (s, [])
  | call :: rest =>
      let (s1, p) := resume call s in
      let (s2, ps) := start_all rest s1 in
      (s2, p :: ps)
  end.

Fixpoint first_rejection {S : Type} (pool : list (Async S unit)) : option Exn :=
  match pool with
  | [] => None
  | Throw e :: _ => Some e
  | _ :: rest => first_rejection rest
  end.

Fixpoint resume_nth {S : Type} (i : nat) (pool : list (Async S unit)) (s : S)
  {struct pool} : S * list (Async S unit) :=
  match pool, i with
  | [], _ => (s, [])
  | p :: rest, O => let (s', p') := resume p s in (s', p' :: rest)
  | p :: rest, Datatypes.S j =>
      let (s', rest') := resume_nth j rest s in (s', p :: rest')
  end.

Fixpoint run_each {S : Type} (pool : list (Async S unit)) (s : S) : S * Result unit :=
  match pool with
  | [] => (s, Ok tt)
  | p :: rest =>
      match run p s with
      | (s', Ok _) => run_each rest s'
      | (s', Raise e) => (s', Raise e)
      end
  end.

(** After a rejection nothing stops the computations that are still
    pending: they are resumed as far as [schedule] goes before the caller
    looks at the state, and what becomes of them is not reported. *)
Fixpoint keep_running {S : Type} (schedule : list nat) (pool : list (Async S unit)) (s : S)
  : S :=
  match schedule with
  | [] => s
  | i :: schedule' =>
      let (s', pool') := resume_nth (i mod length pool) pool s in
      keep_running schedule' pool' s'
  end.

(** [Promise.all(pool)].  The order in which the pending computations are
    resumed is not fixed by the program: [schedule] lists which one is
    resumed next; when it is used up the remaining ones are completed one
    after the other.  The first rejection observed is the outcome; the
    others keep running. *)
Fixpoint settle_all {S : Type} (schedule : list nat) (pool : list (Async S unit)) (s : S)
  : S * Result unit :=
  match first_rejection pool with
  | Some e => (keep_running schedule pool s, Raise e)
  | None =>
      match schedule with
      | [] => run_each pool s
      | i :: schedule' =>
          let (s', pool') := resume_nth (i mod length pool) pool s in
          settle_all schedule' pool' s'
      end
  end.

Definition promise_all {S : Type} (schedule : list nat) (calls : list (Async S unit)) (s : S)
  : S * Result unit :=
  let (s', pool) := start_all calls s in settle_all schedule pool s'.

Section Kelonio.

Context {host : Host}.

(** A zero-argument function of the user, [() => any]: calling it runs its
    synchronous part; if it gives back a promise, the rest of the tree (from
    its first [Await] on) is what that promise still has to do. *)
Definition Work : Type := Async Env unit.

(** ** interface MeasureOptions *)

Record MeasureOptions : Type := {
  iterations : Z;
  serial : bool;
  meanUnder : option R;
  minUnder : option R;
  maxUnder : option R;
  marginOfErrorUnder : option R;
  standardDeviationUnder : option R;
  beforeEach : option Work;
  afterEach : option Work;
  verify : bool
}.

(** [Partial<MeasureOptions>]: [None] is an absent key. *)
Record PartialMeasureOptions : Type := {
  iterations' : option Z;
  serial' : option bool;
  meanUnder' : option R;
  minUnder' : option R;
  maxUnder' : option R;
  marginOfErrorUnder' : option R;
  standardDeviationUnder' : option R;
  beforeEach' : option Work;
  afterEach' : option Work;
  verify' : option bool
}.

(** The object literal [{}]. *)
Definition no_options : PartialMeasureOptions :=
  {| iterations' := None; serial' := None; meanUnder' := None; minUnder' := None;
     maxUnder' := None; marginOfErrorUnder' := None; standardDeviationUnder' := None;
     beforeEach' := None; afterEach' := None; verify' := None |}.

Definition defaultMeasureOptions : MeasureOptions :=
  {| iterations := 100; serial := true; meanUnder := None; minUnder := None;
     maxUnder := None; marginOfErrorUnder := None; standardDeviationUnder := None;
     beforeEach := None; afterEach := None; verify := true |}.

Definition or_else {A : Type} (o : option A) (d : A) : A :=
  match o with Some a => a | None => d end.

Definition or_else_opt {A : Type} (o d : option A) : option A :=
  match o with Some a => Some a | None => d end.

(** [{ ...base, ...options }] *)
Definition spread (base : MeasureOptions) (options : PartialMeasureOptions) : MeasureOptions :=
  {| iterations := or_else (iterations' options) (iterations base);
     serial := or_else (serial' options) (serial base);
     meanUnder := or_else_opt (meanUnder' options) (meanUnder base);
     minUnder := or_else_opt (minUnder' options) (minUnder base);
     maxUnder := or_else_opt (maxUnder' options) (maxUnder base);
     marginOfErrorUnder := or_else_opt (marginOfErrorUnder' options) (marginOfErrorUnder base);
     standardDeviationUnder :=
       or_else_opt (standardDeviationUnder' options) (standardDeviationUnder base);
     beforeEach := or_else_opt (beforeEach' options) (beforeEach base);
     afterEach := or_else_opt (afterEach' options) (afterEach base);
     verify := or_else (verify' options) (verify base) |}.

(** [{ ...options, verify: v }] *)
Definition with_verify (options : MeasureOptions) (v : bool) : MeasureOptions :=
  {| iterations := iterations options;
     serial := serial options;
     meanUnder := meanUnder options;
     minUnder := minUnder options;
     maxUnder := maxUnder options;
     marginOfErrorUnder := marginOfErrorUnder options;
     standardDeviationUnder := standardDeviationUnder options;
     beforeEach := beforeEach options;
     afterEach := afterEach options;
     verify := v |}.

(** A complete options object passed where a partial one is expected. *)
Definition as_partial (options : MeasureOptions) : PartialMeasureOptions :=
  {| iterations' := Some (iterations options);
     serial' := Some (serial options);
     meanUnder' := meanUnder options;
     minUnder' := minUnder options;
     maxUnder' := maxUnder options;
     marginOfErrorUnder' := marginOfErrorUnder options;
     standardDeviationUnder' := standardDeviationUnder options;
     beforeEach' := beforeEach options;
     afterEach' := afterEach options;
     verify' := Some (verify options) |}.

(** ** Helpers *)

(** [const ret = fn(); if (ret instanceof Promise) { await ret; }] *)
Definition maybePromise (fn : Work) : Async Env unit := fn.

Definition round (value : R) : R := mathjs_round value 5.

(** ** verifyMeasurement *)

Definition exceeded (what : string) (value threshold : R) : Exn :=
  PerformanceError
    (what ++ " time of " ++ number_to_string value
          ++ " ms exceeded threshold of " ++ number_to_string threshold ++ " ms").

(** [if (limit !== undefined) { if (value > limit) { throw ... } }], then
    the rest of the function. *)
Definition check (what : string) (value : R) (limit : option R)
  (rest : Result unit) : Result unit :=
  match limit with
  | Some threshold =>
      if Rgt_dec value threshold then Raise (exceeded what value threshold)
      else rest
  | None => rest
  end.

Definition verifyMeasurement (measurement : Measurement) (options : MeasureOptions)
  : Result unit :=
  if negb (verify options) then Ok tt
  else
    check "Mean" (Measurement.mean measurement) (meanUnder options)
   (check "Minimum" (Measurement.min measurement) (minUnder options)
   (check "Maximum" (Measurement.max measurement) (maxUnder options)
   (check "Margin of error" (Measurement.marginOfError measurement)
      (marginOfErrorUnder options)
   (check "Standard deviation" (Measurement.standardDeviation measurement)
      (standardDeviationUnder options)
   (Ok tt))))).

(** ** measure *)

(** The closure pushed on [calls]; its state is the host's together with
    the local array [durations]. *)
Definition iteration (fn : Work) (mergedOptions : MeasureOptions)
  : Async (Env * list R) unit :=
  (match beforeEach mergedOptions with
   | Some hook => await (lift (maybePromise hook))
   | None => Return tt
   end ;;
   Get (fun st => let startTime := hrtime (fst st) in
   await (lift (maybePromise fn)) ;;
   Get (fun st' => let '(durationSec, durationNano) := hrtime_since startTime (fst st') in
   Modify (fun st'' =>
             (fst st'', push (snd st'') (IZR durationSec * 1e3 + IZR durationNano / 1e6)))
   (match afterEach mergedOptions with
    | Some hook => await (lift (maybePromise hook))
    | None => Return tt
    end))))%async.

Definition measure (fn : Work) (options : PartialMeasureOptions) (schedule : list nat)
  (env : Env) : Env * Result Measurement :=
  let mergedOptions := spread defaultMeasureOptions options in
  let calls := repeat (iteration fn mergedOptions) (Z.to_nat (iterations mergedOptions)) in
  let '((env', durations), outcome) :=
    if serial mergedOptions then run (serially calls) (env, [])
    else promise_all schedule calls (env, []) in
  match outcome with
  | Raise e => (env', Raise e)
  | Ok _ =>
      match Measurement.new durations with
      | Raise e => (env', Raise e)
      | Ok measurement =>
          match verifyMeasurement measurement mergedOptions with
          | Raise e => (env', Raise e)
          | Ok _ => (env', Ok measurement)
          end
      end
  end.

(** ** class Benchmark *)

(** One [emit("record", description, measurement)], together with the
    tree as a listener finds it when it is called. *)
Record RecordEvent : Type := {
  event_description : list string;
  event_measurement : Measurement;
  event_data : BenchmarkData
}.

(** [events] stands for the emitter: the events it has emitted so far, the
    latest last. *)
Record Benchmark : Type := {
  data : BenchmarkData;
  events : list RecordEvent
}.

(** [new Benchmark()] *)
Definition new_Benchmark : Benchmark := {| data := Object []; events := [] |}.

(** [this.events.emit("record", description, measurement)] *)
Definition emit (description : list string) (measurement : Measurement)
  (this : Benchmark) : Benchmark :=
  {| data := data this;
     events := push (events this)
                 {| event_description := description;
                    event_measurement := measurement;
                    event_data := data this |} |}.

(** The tree as the call leaves it, and how the call ends.  Both call
    sites pass a non-empty list of categories; the first case is never
    reached.  For a name that [in] finds only in [Object.prototype] no
    entry is created; [durations] and [children] of the inherited member
    are [undefined], on which [concat], or the [in] of the next call,
    throws a TypeError. *)
Fixpoint addBenchmarkDurations (data : BenchmarkData) (categories : list string)
  (durations' : list R) : BenchmarkData * Result unit :=
  match categories with
  | [] => (data, Ok tt)
  | category :: rest =>
      let es := entries data in
      let es := if negb (has_key category es)
                then set category (mkInfo [] (Object [])) es
                else es in
      match get category es with
      | None => (Object es, Raise TypeError)
      | Some info =>
          if (length categories =? 1)%nat
          then (Object (set category
                          (mkInfo (durations info ++ durations')%list (children info)) es),
                Ok tt)
          else
            let (below, outcome) :=
              addBenchmarkDurations (children info) rest durations' in
            (Object (set category (mkInfo (durations info) below) es), outcome)
      end
  end.

(** The Benchmark as the call leaves it, and how the call ends. *)
Definition incorporate (description : list string) (measurement : Measurement)
  (this : Benchmark) : Benchmark * Result unit :=
  if (length description =? 0)%nat
  then (this, Raise (Error "The description must not be empty"))
  else
    let (data', outcome) :=
      addBenchmarkDurations (data this) description (Measurement.durations measurement) in
    ({| data := data'; events := events this |}, outcome).

(** The two shapes of a call of [record]. *)
Inductive Description : Type :=
| Text (s : string)
| Path (p : list string).

Inductive RecordArguments : Type :=
| Bare (fn : Work) (options : option PartialMeasureOptions)
| Described (description : Description) (fn : Work)
    (options : option PartialMeasureOptions).

(** [description.length] *)
Definition description_length (description : Description) : nat :=
  match description with
  | Text s => String.length s
  | Path p => length p
  end.

Definition record (arguments : RecordArguments) (schedule : list nat)
  (this : Benchmark) (env : Env) : (Benchmark * Env) * Result Measurement :=
  let '(description, descriptionSpecified, fn, options) :=
    match arguments with
    | Bare a b => (Path [], false, a, or_else b no_options)
    | Described a b c => (a, true, b, or_else c no_options)
    end in
  let mergedOptions := spread defaultMeasureOptions options in
  if descriptionSpecified && (description_length description =? 0)%nat
  then ((this, env), Raise (Error "The description must not be empty"))
  else
    let description :=
      match description with
      | Text s => [s]
      | Path p => p
      end in
    let (env', measured) :=
      measure fn (as_partial (with_verify mergedOptions false)) schedule env in
    match measured with
    | Raise e => ((this, env'), Raise e)
    | Ok measurement =>
        match (if (0 <? length description)%nat
               then incorporate description measurement this
               else (this, Ok tt)) with
        | (this', Raise e) => ((this', env'), Raise e)
        | (this', Ok _) =>
            let this'' := emit description measurement this' in
            match verifyMeasurement measurement (with_verify mergedOptions true) with
            | Raise e => ((this'', env'), Raise e)
            | Ok _ => ((this'', env'), Ok measurement)
            end
        end
    end.

(** The constructor called on [info.durations] cannot throw here: the list
    has been found non-empty. *)
Fixpoint reportLevel (level : BenchmarkData) (depth : nat) {struct level} : list string :=
  match level with
  | Object es =>
      fold_left
        (fun (lines : list string) (entry : string * Info) =>
           let (description, info) := entry in
           match info with
           | mkInfo durations' children' =>
               let showMeasurement := (0 <? length durations')%nat in
               let showChildren := (0 <? length (entries children'))%nat in
               let lines := push lines (repeat_string "  " depth ++ description ++ ":") in
               let lines :=
                 if showMeasurement then
                   let measurement := Measurement.make durations' in
                   let mean := round (Measurement.mean measurement) in
                   let moe := round (Measurement.marginOfError measurement) in
                   let iterations := INR (length (Measurement.durations measurement)) in
                   push lines (repeat_string "  " (depth + 1) ++ number_to_string mean
                                 ++ " ms (+/- " ++ number_to_string moe ++ " ms) from "
                                 ++ number_to_string iterations ++ " iterations")
                 else lines in
               let lines :=
                 if showMeasurement && showChildren then push lines "" else lines in
               let lines :=
                 if showChildren then app lines (reportLevel children' (depth + 1))
                 else lines in
               lines
           end)
        es []
  end.

Definition report (this : Benchmark) : Benchmark * string :=
  let lines := reportLevel (data this) 0 in
  if (length lines =? 0)%nat then (this, "")
  else (this, join ([HEADER] ++ reportLevel (data this) 0 ++ [FOOTER])%list newline).

End Kelonio.

(** * Properties *)

(** ** Statistics *)

Section Statistics.

Lemma fold_Rmin_le (xs : list R) (a : R) :
  fold_left Rmin xs a <= a /\ Forall (fun x => fold_left Rmin xs a <= x) xs.
Proof.
  revert a. induction xs as [|x xs IH]; intros a; simpl.
  - split; [lra | constructor].
  - destruct (IH (Rmin a x)) as [Ha Hxs]. split.
    + pose proof (Rmin_l a x). lra.
    + constructor; [pose proof (Rmin_r a x); lra | exact Hxs].
Qed.

Lemma fold_Rmax_ge (xs : list R) (a : R) :
  a <= fold_left Rmax xs a /\ Forall (fun x => x <= fold_left Rmax xs a) xs.
Proof.
  revert a. induction xs as [|x xs IH]; intros a; simpl.
  - split; [lra | constructor].
  - destruct (IH (Rmax a x)) as [Ha Hxs]. split.
    + pose proof (Rmax_l a x). lra.
    + constructor; [pose proof (Rmax_r a x); lra | exact Hxs].
Qed.

Lemma min_is_lower_bound (xs : list R) :
  Forall (fun x => mathjs.min xs <= x) xs.
Proof.
  destruct xs as [|x xs]; [constructor|]. simpl.
  destruct (fold_Rmin_le xs x). constructor; assumption.
Qed.

Lemma max_is_upper_bound (xs : list R) :
  Forall (fun x => x <= mathjs.max xs) xs.
Proof.
  destruct xs as [|x xs]; [constructor|]. simpl.
  destruct (fold_Rmax_ge xs x). constructor; assumption.
Qed.





End Statistics.

(** ** Threshold verification *)

(** The statistics in the order in which they are checked, with the name
    each has in a message. *)
Inductive Statistic : Type :=
| Mean | Minimum | Maximum | MarginOfError | StandardDeviation.

Definition check_order : list Statistic :=
  [Mean; Minimum; Maximum; MarginOfError; StandardDeviation].

Definition statistic_name (s : Statistic) : string :=
  match s with
  | Mean => "Mean"
  | Minimum => "Minimum"
  | Maximum => "Maximum"
  | MarginOfError => "Margin of error"
  | StandardDeviation => "Standard deviation"
  end.

Definition statistic_value (s : Statistic) (m : Measurement) : R :=
  match s with
  | Mean => Measurement.mean m
  | Minimum => Measurement.min m
  | Maximum => Measurement.max m
  | MarginOfError => Measurement.marginOfError m
  | StandardDeviation => Measurement.standardDeviation m
  end.

Section Verification.

Context {host : Host}.

Definition threshold (s : Statistic) (options : MeasureOptions) : option R :=
  match s with
  | Mean => meanUnder options
  | Minimum => minUnder options
  | Maximum => maxUnder options
  | MarginOfError => marginOfErrorUnder options
  | StandardDeviation => standardDeviationUnder options
  end.

(** The threshold of [s] is defined and the statistic is strictly greater. *)
Definition exceeds (s : Statistic) (m : Measurement) (options : MeasureOptions) : Prop :=
  exists t, threshold s options = Some t /\ statistic_value s m > t.

Lemma check_passes what value limit rest :
  ~ (exists t, limit = Some t /\ value > t) ->
  check what value limit rest = rest.
Proof.
  intros H. unfold check. destruct limit as [t|]; [|reflexivity].
  destruct (Rgt_dec value t) as [Hgt|]; [|reflexivity].
  exfalso. apply H. exists t. split; [reflexivity | exact Hgt].
Qed.

Lemma check_fails what value t rest :
  value > t ->
  check what value (Some t) rest = Raise (exceeded what value t).
Proof.
  intros H. unfold check. destruct (Rgt_dec value t); [reflexivity | contradiction].
Qed.

Lemma verify_off m options :
  verify options = false -> verifyMeasurement m options = Ok tt.
Proof. intros H. unfold verifyMeasurement. rewrite H. reflexivity. Qed.

Lemma no_threshold_passes m options :
  (forall s, threshold s options = None) -> verifyMeasurement m options = Ok tt.
Proof.
  intros Hnone. unfold verifyMeasurement.
  destruct (verify options); [|reflexivity]. simpl.
  rewrite (Hnone Mean : meanUnder options = None).
  rewrite (Hnone Minimum : minUnder options = None).
  rewrite (Hnone Maximum : maxUnder options = None).
  rewrite (Hnone MarginOfError : marginOfErrorUnder options = None).
  rewrite (Hnone StandardDeviation : standardDeviationUnder options = None).
  reflexivity.
Qed.

(** C1: with [verify] set, the check fails at the first statistic, in the
    order mean, minimum, maximum, margin of error, standard deviation, whose
    threshold is defined and strictly below the measured value, with a
    PerformanceError whose message names the statistic, the value and the
    threshold; it succeeds when there is none, and always when [verify] is
    false. *)
Theorem verifyMeasurement_first_exceeded (m : Measurement) (options : MeasureOptions) :
  (verify options = false -> verifyMeasurement m options = Ok tt)
  /\ (verify options = true ->
      (forall s, In s check_order -> ~ exceeds s m options) ->
      verifyMeasurement m options = Ok tt)
  /\ (verify options = true ->
      forall before s after t,
        check_order = (before ++ s :: after)%list ->
        (forall s', In s' before -> ~ exceeds s' m options) ->
        threshold s options = Some t ->
        statistic_value s m > t ->
        verifyMeasurement m options
        = Raise (PerformanceError
                   (statistic_name s ++ " time of "
                      ++ number_to_string (statistic_value s m)
                      ++ " ms exceeded threshold of "
                      ++ number_to_string t ++ " ms"))).
Proof.
  split; [apply verify_off|]. split.
  - intros Hv Hnone. unfold verifyMeasurement. rewrite Hv. simpl.
    rewrite (check_passes "Mean") by (apply (Hnone Mean); simpl; tauto).
    rewrite (check_passes "Minimum") by (apply (Hnone Minimum); simpl; tauto).
    rewrite (check_passes "Maximum") by (apply (Hnone Maximum); simpl; tauto).
    rewrite (check_passes "Margin of error")
      by (apply (Hnone MarginOfError); simpl; tauto).
    rewrite (check_passes "Standard deviation")
      by (apply (Hnone StandardDeviation); simpl; tauto).
    reflexivity.
  - intros Hv before s after t Hsplit Hbefore Ht Hgt.
    unfold verifyMeasurement. rewrite Hv. simpl. unfold check_order in Hsplit.
    destruct before as [|s1 before]; simpl in Hsplit; injection Hsplit as <- Hsplit.
    { simpl in Ht. rewrite Ht. apply check_fails, Hgt. }
    rewrite (check_passes "Mean") by (apply (Hbefore Mean); simpl; tauto).
    destruct before as [|s2 before]; simpl in Hsplit; injection Hsplit as <- Hsplit.
    { simpl in Ht. rewrite Ht. apply check_fails, Hgt. }
    rewrite (check_passes "Minimum") by (apply (Hbefore Minimum); simpl; tauto).
    destruct before as [|s3 before]; simpl in Hsplit; injection Hsplit as <- Hsplit.
    { simpl in Ht. rewrite Ht. apply check_fails, Hgt. }
    rewrite (check_passes "Maximum") by (apply (Hbefore Maximum); simpl; tauto).
    destruct before as [|s4 before]; simpl in Hsplit; injection Hsplit as <- Hsplit.
    { simpl in Ht. rewrite Ht. apply check_fails, Hgt. }
    rewrite (check_passes "Margin of error")
      by (apply (Hbefore MarginOfError); simpl; tauto).
    destruct before as [|s5 before]; simpl in Hsplit; injection Hsplit as <- Hsplit.
    { simpl in Ht. rewrite Ht. apply check_fails, Hgt. }
    destruct before; discriminate Hsplit.
Qed.

End Verification.

(** ** Asynchronous code that does not fail *)

Section AsyncFacts.

Context {S A : Type}.

(** No path through the computation throws. *)
Fixpoint never_fails (p : Async S A) : Prop :=
  match p with
  | Return _ => True
  | Throw _ => False
  | Get k => forall s, never_fails (k s)
  | Modify _ k => never_fails k
  | Await k => never_fails k
  end.

End AsyncFacts.

Section Samples.

Context {E : Type}.

Abbreviation St := (E * list R)%type.

(** [adds n p]: [p] does not fail and, whatever happens in between, adds
    exactly [n] samples to the array before it completes. *)
Fixpoint adds {A : Type} (n : nat) (p : Async St A) : Prop :=
  match p with
  | Return _ => n = O
  | Throw _ => False
  | Get k => forall st, adds n (k st)
  | Modify f k =>
      exists j, (forall st : St, length (snd (f st)) = (length (snd st) + j)%nat)
                /\ (j <= n)%nat /\ adds (n - j) k
  | Await k => adds n k
  end.

Lemma adds_bind {A B : Type} (p : Async St A) (f : A -> Async St B) (n m : nat) :
  adds n p -> (forall a, adds m (f a)) -> adds (n + m) (bind p f).
Proof.
  revert n. induction p as [a|e|k IH|g k IH|k IH]; intros n Hp Hf; simpl in *.
  - subst n. apply Hf.
  - contradiction.
  - intros st. apply IH; auto.
  - destruct Hp as (j & Hlen & Hj & Hk). exists j. repeat split; auto; try lia.
    replace (n + m - j)%nat with (n - j + m)%nat by lia. apply IH; auto.
  - apply IH; auto.
Qed.

Lemma adds_await {A : Type} (p : Async St A) (n : nat) :
  adds n p -> adds n (await p).
Proof.
  intros H. unfold await. replace n with (n + 0)%nat by lia.
  apply adds_bind; [exact H | intros a; reflexivity].
Qed.

Lemma adds_lift {A : Type} (p : Async E A) :
  never_fails p -> adds 0 (lift p : Async St A).
Proof.
  induction p as [a|e|k IH|g k IH|k IH]; simpl; intros H; auto.
  exists O. split; [intros st; simpl; lia | split; [lia | apply IH, H]].
Qed.

Lemma run_adds {A : Type} (p : Async St A) (n : nat) (st : St) :
  adds n p ->
  exists st' a, run p st = (st', Ok a) /\ length (snd st') = (length (snd st) + n)%nat.
Proof.
  revert n st. induction p as [a|e|k IH|g k IH|k IH]; intros n st Hp; simpl in *.
  - subst n. exists st, a. split; [reflexivity | lia].
  - contradiction.
  - apply IH, Hp.
  - destruct Hp as (j & Hlen & Hj & Hk).
    destruct (IH _ (g st) Hk) as (st' & a & Hrun & Hl).
    exists st', a. split; [exact Hrun|]. rewrite Hl, Hlen. lia.
  - apply IH, Hp.
Qed.

Lemma resume_adds {A : Type} (p : Async St A) (n : nat) (st : St) :
  adds n p ->
  exists j, (j <= n)%nat
            /\ length (snd (fst (resume p st))) = (length (snd st) + j)%nat
            /\ adds (n - j) (snd (resume p st)).
Proof.
  revert n st. induction p as [a|e|k IH|g k IH|k IH]; intros n st Hp; simpl in *.
  - subst n. exists O. repeat split; simpl; auto.
  - contradiction.
  - apply IH, Hp.
  - destruct Hp as (j & Hlen & Hj & Hk).
    destruct (IH _ (g st) Hk) as (i & Hi & Hl & Hrest).
    exists (j + i)%nat. repeat split; try lia.
    + rewrite Hl, Hlen. lia.
    + replace (n - (j + i))%nat with (n - j - i)%nat by lia. exact Hrest.
  - exists O. repeat split; simpl; try lia.
    replace (n - 0)%nat with n by lia. exact Hp.
Qed.

(** A pool of computations that together still add [n] samples. *)
Inductive pool_adds : nat -> list (Async St unit) -> Prop :=
| pool_adds_nil : pool_adds O []
| pool_adds_cons k n p pool :
    adds k p -> pool_adds n pool -> pool_adds (k + n) (p :: pool).

Lemma pool_adds_repeat (p : Async St unit) (count : nat) :
  adds 1 p -> pool_adds count (repeat p count).
Proof.
  intros Hp. induction count as [|count IH]; simpl.
  - constructor.
  - change (Datatypes.S count) with (1 + count)%nat. constructor; assumption.
Qed.

Lemma serially_adds (pool : list (Async St unit)) (n : nat) :
  pool_adds n pool -> adds n (serially pool).
Proof.
  induction 1 as [|k n p pool Hp _ IH]; simpl.
  - reflexivity.
  - apply adds_bind; [apply adds_await, Hp | intros _; exact IH].
Qed.

Lemma pool_adds_no_rejection (pool : list (Async St unit)) (n : nat) :
  pool_adds n pool -> first_rejection pool = None.
Proof.
  induction 1 as [|k n p pool Hp _ IH]; simpl; [reflexivity|].
  destruct p; simpl in Hp; try exact IH. contradiction.
Qed.

Lemma start_all_adds (pool : list (Async St unit)) (n : nat) (st : St) :
  pool_adds n pool ->
  exists j, (j <= n)%nat
            /\ length (snd (fst (start_all pool st))) = (length (snd st) + j)%nat
            /\ pool_adds (n - j) (snd (start_all pool st)).
Proof.
  intros H. revert st. induction H as [|k n p pool Hp _ IH]; intros st; simpl.
  - exists O. repeat split; simpl; auto. constructor.
  - destruct (resume_adds p k st Hp) as (j & Hj & Hl & Hrest).
    destruct (resume p st) as [st1 p'] eqn:Hres. simpl in Hl, Hrest.
    destruct (IH st1) as (i & Hi & Hl' & Hpool).
    destruct (start_all pool st1) as [st2 pool'] eqn:Hstart. simpl in *.
    exists (j + i)%nat. repeat split; try lia.
    replace (k + n - (j + i))%nat with ((k - j) + (n - i))%nat by lia.
    constructor; assumption.
Qed.

Lemma resume_nth_adds (pool : list (Async St unit)) (n i : nat) (st : St) :
  pool_adds n pool ->
  exists j, (j <= n)%nat
            /\ length (snd (fst (resume_nth i pool st))) = (length (snd st) + j)%nat
            /\ pool_adds (n - j) (snd (resume_nth i pool st)).
Proof.
  intros H. revert i st. induction H as [|k n p pool Hp Hpool IH]; intros i st; simpl.
  - exists O. repeat split; simpl; auto. constructor.
  - destruct i as [|i].
    + destruct (resume_adds p k st Hp) as (j & Hj & Hl & Hrest).
      destruct (resume p st) as [st1 p'] eqn:Hres. simpl in *.
      exists j. repeat split; try lia.
      replace (k + n - j)%nat with ((k - j) + n)%nat by lia.
      constructor; assumption.
    + destruct (IH i st) as (j & Hj & Hl & Hrest).
      destruct (resume_nth i pool st) as [st1 pool'] eqn:Hres. simpl in *.
      exists j. repeat split; try lia.
      replace (k + n - j)%nat with (k + (n - j))%nat by lia.
      constructor; assumption.
Qed.

Lemma run_each_adds (pool : list (Async St unit)) (n : nat) (st : St) :
  pool_adds n pool ->
  exists st', run_each pool st = (st', Ok tt)
              /\ length (snd st') = (length (snd st) + n)%nat.
Proof.
  intros H. revert st. induction H as [|k n p pool Hp _ IH]; intros st; simpl.
  - exists st. split; [reflexivity | lia].
  - destruct (run_adds p k st Hp) as (st1 & a & Hrun & Hl). rewrite Hrun.
    destruct (IH st1) as (st2 & Hrest & Hl'). exists st2.
    split; [exact Hrest | lia].
Qed.

Lemma settle_all_adds (schedule : list nat) (pool : list (Async St unit))
  (n : nat) (st : St) :
  pool_adds n pool ->
  exists st', settle_all schedule pool st = (st', Ok tt)
              /\ length (snd st') = (length (snd st) + n)%nat.
Proof.
  revert pool n st. induction schedule as [|i schedule IH]; intros pool n st H; simpl;
    rewrite (pool_adds_no_rejection pool n H).
  - apply run_each_adds, H.
  - destruct (resume_nth_adds pool n (i mod length pool) st H) as (j & Hj & Hl & Hrest).
    destruct (resume_nth (i mod length pool) pool st) as [st1 pool'] eqn:Hres.
    simpl in *. destruct (IH pool' (n - j)%nat st1 Hrest) as (st2 & Hsettle & Hl').
    exists st2. split; [exact Hsettle | lia].
Qed.

Lemma promise_all_adds (schedule : list nat) (pool : list (Async St unit))
  (n : nat) (st : St) :
  pool_adds n pool ->
  exists st', promise_all schedule pool st = (st', Ok tt)
              /\ length (snd st') = (length (snd st) + n)%nat.
Proof.
  intros H. unfold promise_all.
  destruct (start_all_adds pool n st H) as (j & Hj & Hl & Hrest).
  destruct (start_all pool st) as [st1 pool'] eqn:Hstart. simpl in *.
  destruct (settle_all_adds schedule pool' (n - j)%nat st1 Hrest) as (st2 & Hs & Hl').
  exists st2. split; [exact Hs | lia].
Qed.

End Samples.

(** ** The number of samples collected by measure *)

Section MeasureFacts.

Context {host : Host}.

(** The hooks that are present do not fail. *)
Definition hooks_never_fail (options : MeasureOptions) : Prop :=
  (forall hook, beforeEach options = Some hook -> never_fails hook)
  /\ (forall hook, afterEach options = Some hook -> never_fails hook).

Lemma length_push {A : Type} (xs : list A) (x : A) :
  length (push xs x) = (length xs + 1)%nat.
Proof. unfold push. apply length_app. Qed.

Lemma hook_adds (hook : option Work) :
  (forall h, hook = Some h -> never_fails h) ->
  adds 0 (match hook with
          | Some h => await (lift (maybePromise h))
          | None => Return tt
          end : Async (Env * list R) unit).
Proof.
  intros H. destruct hook as [h|]; [|reflexivity].
  apply adds_await, adds_lift, H. reflexivity.
Qed.

Lemma iteration_adds (fn : Work) (options : MeasureOptions) :
  never_fails fn -> hooks_never_fail options -> adds 1 (iteration fn options).
Proof.
  intros Hfn [Hbefore Hafter]. unfold iteration.
  change 1%nat with (0 + 1)%nat. apply adds_bind; [apply hook_adds, Hbefore|].
  intros _ st. cbv zeta.
  change 1%nat with (0 + 1)%nat. apply adds_bind; [apply adds_await, adds_lift, Hfn|].
  intros _ st'. destruct (hrtime_since (hrtime (fst st)) (fst st')) as [sec nano].
  exists 1%nat. split; [|split].
  - intros st''. simpl. apply length_push.
  - lia.
  - apply hook_adds, Hafter.
Qed.

(** Every iteration leaves exactly one sample, in both modes and whatever
    the order in which overlapping iterations are resumed. *)
Lemma measure_collects (fn : Work) (options : MeasureOptions) (schedule : list nat)
  (env : Env) :
  never_fails fn -> hooks_never_fail options ->
  let calls := repeat (iteration fn options) (Z.to_nat (iterations options)) in
  exists env' durations,
    (if serial options then run (serially calls) (env, [])
     else promise_all schedule calls (env, [])) = ((env', durations), Ok tt)
    /\ length durations = Z.to_nat (iterations options).
Proof.
  intros Hfn Hhooks calls.
  assert (Hpool : pool_adds (Z.to_nat (iterations options)) calls)
    by (apply pool_adds_repeat, iteration_adds; assumption).
  destruct (serial options).
  - destruct (run_adds (serially calls) _ (env, []) (serially_adds _ _ Hpool))
      as ([env' ds] & [] & Hrun & Hlen).
    exists env', ds. split; [exact Hrun | exact Hlen].
  - destruct (promise_all_adds schedule calls _ (env, []) Hpool)
      as ([env' ds] & Hrun & Hlen).
    exists env', ds. split; [exact Hrun | exact Hlen].
Qed.

(** C5: for a positive number of iterations [N] and work (and hooks) that
    complete without failure, measure builds a Measurement of exactly [N]
    samples, with [serial] true or false and for every order in which
    overlapping iterations are resumed, and hands it to the threshold
    check; it returns that Measurement when [verify] is false or no
    threshold is set, and in general whenever the check passes. *)
Theorem measure_sample_count (fn : Work) (options : PartialMeasureOptions)
  (schedule : list nat) (env : Env) (N : Z) :
  let mergedOptions := spread defaultMeasureOptions options in
  (0 < N)%Z ->
  iterations mergedOptions = N ->
  never_fails fn ->
  hooks_never_fail mergedOptions ->
  exists env' measurement,
    Z.of_nat (length (Measurement.durations measurement)) = N
    /\ measure fn options schedule env
       = (env', match verifyMeasurement measurement mergedOptions with
                | Ok _ => Ok measurement
                | Raise e => Raise e
                end)
    /\ (verify mergedOptions = false \/ (forall s, threshold s mergedOptions = None) ->
        measure fn options schedule env = (env', Ok measurement)).
Proof.
  intros mergedOptions HN Hiter Hfn Hhooks.
  destruct (measure_collects fn mergedOptions schedule env Hfn Hhooks)
    as (env' & ds & Hrun & Hlen).
  assert (Hnew : Measurement.new ds = Ok (Measurement.make ds)).
  { unfold Measurement.new. rewrite Hlen, Hiter.
    destruct (Nat.eqb_spec (Z.to_nat N) 0); [lia | reflexivity]. }
  assert (Hmeasure :
    measure fn options schedule env
    = (env', match verifyMeasurement (Measurement.make ds) mergedOptions with
             | Ok _ => Ok (Measurement.make ds)
             | Raise e => Raise e
             end)).
  { unfold measure. fold mergedOptions. cbv zeta. rewrite Hrun, Hnew.
    destruct (verifyMeasurement (Measurement.make ds) mergedOptions); reflexivity. }
  exists env', (Measurement.make ds). split; [|split].
  - simpl. rewrite Hlen, Hiter. lia.
  - exact Hmeasure.
  - intros [Hoff | Hnone]; rewrite Hmeasure.
    + rewrite verify_off by exact Hoff. reflexivity.
    + rewrite no_threshold_passes by exact Hnone. reflexivity.
Qed.

Lemma promise_all_nil {S : Type} (schedule : list nat) (s : S) :
  promise_all schedule [] s = (s, Ok tt).
Proof.
  unfold promise_all. simpl.
  induction schedule as [|i schedule IH]; simpl; [reflexivity | exact IH].
Qed.

(** C8: the constructor rejects an empty list of durations, and measure
    with zero iterations fails with that error: the work is not run and
    nothing is returned. *)
Theorem empty_measurement_rejected (fn : Work) (options : PartialMeasureOptions)
  (schedule : list nat) (env : Env) :
  Measurement.new [] = Raise (Error "The list of durations must not be empty")
  /\ (iterations (spread defaultMeasureOptions options) = 0%Z ->
      measure fn options schedule env
      = (env, Raise (Error "The list of durations must not be empty"))).
Proof.
  split; [reflexivity|].
  intros Hzero. unfold measure. cbv zeta. rewrite Hzero.
  change (repeat _ (Z.to_nat 0)) with (@nil (Async (Env * list R) unit)).
  rewrite promise_all_nil.
  destruct (serial (spread defaultMeasureOptions options)); reflexivity.
Qed.

End MeasureFacts.

(** ** The tree merge *)

Section TreeFacts.

(** The node at the end of a path, when every segment is present. *)
Fixpoint find_node (data : BenchmarkData) (path : list string) : option Info :=
  match path with
  | [] => None
  | key :: rest =>
      match get key (entries data) with
      | None => None
      | Some info =>
          match rest with
          | [] => Some info
          | _ :: _ => find_node (children info) rest
          end
      end
  end.

(** The direct samples filed under a path; none when there is no such node. *)
Definition samples_at (data : BenchmarkData) (path : list string) : list R :=
  match find_node data path with
  | Some info => durations info
  | None => []
  end.

(** [p] is a non-empty initial part of [q]. *)
Fixpoint initial_part (p q : list string) : Prop :=
  match p, q with
  | [], _ => False
  | a :: [], b :: _ => a = b
  | a :: p', b :: q' => a = b /\ initial_part p' q'
  | _ :: _, [] => False
  end.

(** No segment of the path is a name inherited from [Object.prototype]. *)
Definition ordinary (path : list string) : Prop :=
  Forall (fun key => inherited key = false) path.

(** [in] finds the key, but only in [Object.prototype]. *)
Definition blocked (key : string) (es : list (string * Info)) : bool :=
  inherited key && negb (own_key key es).

Lemma own_key_get key es : own_key key es = true <-> get key es <> None.
Proof.
  induction es as [|[k info] es IH]; simpl.
  - split; [discriminate | congruence].
  - destruct (String.eqb key k); [split; [discriminate | reflexivity] | exact IH].
Qed.

Lemma own_key_false_get key es : own_key key es = false <-> get key es = None.
Proof.
  pose proof (own_key_get key es) as H.
  destruct (own_key key es); destruct (get key es); split; intros; try reflexivity;
    try discriminate; exfalso; [apply (proj1 H) | ]; try reflexivity;
    try (assert (false = true) by (apply H; discriminate); discriminate).
Qed.

Lemma get_replace_same key info es :
  own_key key es = true -> get key (replace key info es) = Some info.
Proof.
  induction es as [|[k old] es IH]; simpl; [discriminate|].
  destruct (String.eqb key k) eqn:Hk; simpl; rewrite Hk; [reflexivity | exact IH].
Qed.

Lemma get_replace_other key key' info es :
  key' <> key -> get key' (replace key info es) = get key' es.
Proof.
  intros Hne. induction es as [|[k old] es IH]; simpl; [reflexivity|].
  destruct (String.eqb_spec key k) as [->|Hk]; simpl.
  - destruct (String.eqb_spec key' k); [contradiction | reflexivity].
  - destruct (String.eqb key' k); [reflexivity | exact IH].
Qed.

Lemma get_place_same n key info es :
  own_key key es = false -> get key (place n key info es) = Some info.
Proof.
  induction es as [|[k old] es IH]; simpl.
  - rewrite String.eqb_refl. reflexivity.
  - destruct (String.eqb key k) eqn:Hk; [discriminate|]. intros Hown.
    destruct (array_index k) as [m|]; [destruct (n <? m)%N|]; simpl;
      rewrite ?String.eqb_refl, ?Hk; auto.
Qed.

Lemma get_place_other n key key' info es :
  key' <> key -> get key' (place n key info es) = get key' es.
Proof.
  intros Hne. apply String.eqb_neq in Hne.
  induction es as [|[k old] es IH]; simpl.
  - rewrite Hne. reflexivity.
  - destruct (array_index k) as [m|]; [destruct (n <? m)%N|]; simpl; rewrite ?Hne; auto.
    destruct (String.eqb key' k); [reflexivity | exact IH].
Qed.

Lemma get_app_same key info es :
  own_key key es = false -> get key (es ++ [(key, info)]) = Some info.
Proof.
  induction es as [|[k old] es IH]; simpl.
  - rewrite String.eqb_refl. reflexivity.
  - destruct (String.eqb key k); [discriminate | exact IH].
Qed.

Lemma get_app_other key key' info es :
  key' <> key -> get key' (es ++ [(key, info)]) = get key' es.
Proof.
  intros Hne. apply String.eqb_neq in Hne.
  induction es as [|[k old] es IH]; simpl.
  - rewrite Hne. reflexivity.
  - destruct (String.eqb key' k); [reflexivity | exact IH].
Qed.

Lemma get_set_same key info es : get key (set key info es) = Some info.
Proof.
  unfold set. destruct (own_key key es) eqn:Hown.
  - apply get_replace_same, Hown.
  - destruct (array_index key); [apply get_place_same | apply get_app_same]; exact Hown.
Qed.

Lemma get_set_other key key' info es :
  key' <> key -> get key' (set key info es) = get key' es.
Proof.
  intros Hne. unfold set. destruct (own_key key es).
  - apply get_replace_other, Hne.
  - destruct (array_index key); [apply get_place_other | apply get_app_other]; exact Hne.
Qed.

Lemma own_key_set_same key info es : own_key key (set key info es) = true.
Proof. apply own_key_get. rewrite get_set_same. discriminate. Qed.

Lemma own_key_set_other key key' info es :
  key' <> key -> own_key key' (set key info es) = own_key key' es.
Proof.
  intros Hne. destruct (own_key key' es) eqn:Hown.
  - apply own_key_get. rewrite get_set_other by exact Hne. apply own_key_get, Hown.
  - apply own_key_false_get. rewrite get_set_other by exact Hne.
    apply own_key_false_get, Hown.
Qed.

Lemma replace_replace key info info' es :
  replace key info' (replace key info es) = replace key info' es.
Proof.
  induction es as [|[k old] es IH]; simpl; [reflexivity|].
  destruct (String.eqb key k) eqn:Hk; simpl; rewrite Hk; [reflexivity|].
  rewrite IH. reflexivity.
Qed.

Lemma replace_place n key info info' es :
  own_key key es = false ->
  replace key info' (place n key info es) = place n key info' es.
Proof.
  assert (Hnot : forall l : list (string * Info),
             own_key key l = false -> replace key info' l = l).
  { induction l as [|[k old] l IH]; simpl; [reflexivity|].
    destruct (String.eqb key k); [discriminate|]. intros H. rewrite IH by exact H.
    reflexivity. }
  induction es as [|[k old] es IH]; simpl.
  - rewrite String.eqb_refl. reflexivity.
  - destruct (String.eqb key k) eqn:Hk; [discriminate|]. intros Hown.
    destruct (array_index k) as [m|]; [destruct (n <? m)%N|]; simpl;
      rewrite ?String.eqb_refl, ?Hk; try reflexivity.
    rewrite IH by exact Hown. reflexivity.
Qed.

Lemma replace_app key info info' es :
  own_key key es = false ->
  replace key info' (es ++ [(key, info)]) = (es ++ [(key, info')])%list.
Proof.
  induction es as [|[k old] es IH]; simpl.
  - rewrite String.eqb_refl. reflexivity.
  - destruct (String.eqb key k); [discriminate|]. intros H. rewrite IH by exact H.
    reflexivity.
Qed.

Lemma set_set key info info' es :
  set key info' (set key info es) = set key info' es.
Proof.
  unfold set at 1. rewrite own_key_set_same. unfold set.
  destruct (own_key key es) eqn:Hown.
  - apply replace_replace.
  - destruct (array_index key); [apply replace_place | apply replace_app]; exact Hown.
Qed.

(** The entry of [category] once a missing one has been created. *)
Definition ensured (category : string) (es : list (string * Info)) : Info :=
  match get category es with
  | Some info => info
  | None => mkInfo [] (Object [])
  end.

Lemma ensured_set_same key info es : ensured key (set key info es) = info.
Proof. unfold ensured. rewrite get_set_same. reflexivity. Qed.

Lemma ensured_set_other key key' info es :
  key' <> key -> ensured key' (set key info es) = ensured key' es.
Proof. intros H. unfold ensured. rewrite get_set_other by exact H. reflexivity. Qed.

(** One step of the merge: at a name found only in [Object.prototype] it
    throws and leaves the tree; otherwise it ensures the entry and either
    appends the samples or goes on below. *)
Lemma addBenchmarkDurations_cons data category rest ds :
  addBenchmarkDurations data (category :: rest) ds
  = if blocked category (entries data) then (data, Raise TypeError)
    else
      let es := entries data in
      let info := ensured category es in
      match rest with
      | [] => (Object (set category (mkInfo (durations info ++ ds)%list (children info)) es),
               Ok tt)
      | _ :: _ =>
          (Object (set category
                     (mkInfo (durations info)
                        (fst (addBenchmarkDurations (children info) rest ds))) es),
           snd (addBenchmarkDurations (children info) rest ds))
      end.
Proof.
  cbv zeta. cbn [addBenchmarkDurations]. unfold ensured, blocked, has_key.
  destruct (own_key category (entries data)) eqn:Hown; cbn [orb negb andb].
  - rewrite andb_false_r.
    pose proof (proj1 (own_key_get _ _) Hown) as Hget.
    destruct (get category (entries data)) as [info|]; [|congruence].
    destruct rest; [reflexivity|].
    destruct (addBenchmarkDurations (children info) (s :: rest) ds); reflexivity.
  - rewrite andb_true_r. pose proof (proj1 (own_key_false_get _ _) Hown) as Hnone.
    destruct (inherited category); cbn [negb].
    + rewrite Hnone. destruct data. reflexivity.
    + rewrite get_set_same, Hnone. cbn [durations children].
      destruct rest as [|next rest]; cbn [length Nat.eqb].
      * rewrite set_set. reflexivity.
      * destruct (addBenchmarkDurations (Object []) (next :: rest) ds).
        cbn [fst snd]. rewrite set_set. reflexivity.
Qed.

Lemma samples_at_cons data key rest :
  samples_at data (key :: rest)
  = match rest with
    | [] => durations (ensured key (entries data))
    | _ :: _ => samples_at (children (ensured key (entries data))) rest
    end.
Proof.
  unfold samples_at, ensured. simpl.
  destruct (get key (entries data)) as [info|]; destruct rest; reflexivity.
Qed.

Lemma samples_at_merge data path ds q :
  path <> [] ->
  samples_at (fst (addBenchmarkDurations data path ds)) q
  = if list_eq_dec string_dec q path
    then match snd (addBenchmarkDurations data path ds) with
         | Ok _ => (samples_at data path ++ ds)%list
         | Raise _ => samples_at data path
         end
    else samples_at data q.
Proof.
  revert data q. induction path as [|category rest IH]; intros data q Hne;
    [congruence|].
  rewrite addBenchmarkDurations_cons. cbv zeta.
  destruct (blocked category (entries data)).
  { cbn [fst snd]. destruct (list_eq_dec string_dec q (category :: rest)) as [->|];
      reflexivity. }
  destruct q as [|key q'].
  { destruct (list_eq_dec string_dec [] (category :: rest)); [discriminate|].
    destruct rest; reflexivity. }
  rewrite (samples_at_cons data key q'), (samples_at_cons data category rest).
  destruct rest as [|c2 rest']; cbn [fst snd];
    rewrite (samples_at_cons (Object _) key q'); cbn [entries];
    (destruct (string_dec key category) as [->|Hkey];
     [rewrite ensured_set_same | rewrite ensured_set_other by exact Hkey]).
  - destruct q' as [|k2 q''].
    + destruct (list_eq_dec string_dec [category] [category]); [reflexivity | congruence].
    + destruct (list_eq_dec string_dec (category :: k2 :: q'') [category]);
        [discriminate | reflexivity].
  - destruct (list_eq_dec string_dec (key :: q') [category]); [congruence | reflexivity].
  - destruct q' as [|k2 q''].
    + destruct (list_eq_dec string_dec [category] (category :: c2 :: rest'));
        [discriminate | reflexivity].
    + cbn [children]. rewrite IH by discriminate.
      destruct (list_eq_dec string_dec (k2 :: q'') (c2 :: rest')) as [->|Hq];
        destruct (list_eq_dec string_dec (category :: _) (category :: c2 :: rest'));
        try reflexivity; congruence.
  - destruct (list_eq_dec string_dec (key :: q') (category :: c2 :: rest'));
      [congruence | reflexivity].
Qed.


Lemma initial_part_cons a p b q :
  initial_part (a :: p) (b :: q)
  <-> a = b /\ (p = [] \/ initial_part p q).
Proof.
  simpl. destruct p as [|a' p'].
  - split; [intros ->; auto | intros [-> _]; reflexivity].
  - split.
    + intros [-> H]. auto.
    + intros [-> [H|H]]; [discriminate | auto].
Qed.

Lemma initial_part_nil p : ~ initial_part p [].
Proof. destruct p as [|a [|b p]]; simpl; tauto. Qed.

Lemma find_node_cons data key rest :
  find_node data (key :: rest)
  = match get key (entries data) with
    | None => None
    | Some info =>
        match rest with
        | [] => Some info
        | _ :: _ => find_node (children info) rest
        end
    end.
Proof. reflexivity. Qed.

Lemma find_node_empty q : find_node (Object []) q = None.
Proof. destruct q; reflexivity. Qed.

(** The segments for which the merge finds or creates a node: all of
    them, or those before the first one found only in [Object.prototype]. *)
Fixpoint reached (data : BenchmarkData) (path : list string) : list string :=
  match path with
  | [] => []
  | category :: rest =>
      if blocked category (entries data) then []
      else category :: reached (children (ensured category (entries data))) rest
  end.

Lemma find_node_merge data path ds q :
  find_node (fst (addBenchmarkDurations data path ds)) q <> None
  <-> find_node data q <> None \/ initial_part q (reached data path).
Proof.
  revert data q. induction path as [|category rest IH]; intros data q.
  { cbn [addBenchmarkDurations fst reached]. pose proof (initial_part_nil q). tauto. }
  rewrite addBenchmarkDurations_cons. cbv zeta. cbn [reached].
  destruct (blocked category (entries data)).
  { cbn [fst]. pose proof (initial_part_nil q). tauto. }
  destruct q as [|key q'].
  { destruct rest; simpl; tauto. }
  rewrite initial_part_cons.
  assert (Hchildren : forall q'' : list string,
    find_node (children (ensured category (entries data))) q'' <> None
    <-> match get category (entries data) with
        | Some info => find_node (children info) q''
        | None => None
        end <> None).
  { intros q''. unfold ensured. destruct (get category (entries data)); [tauto|].
    cbn [children]. rewrite find_node_empty. tauto. }
  destruct rest as [|c2 rest']; cbn [fst]; rewrite !find_node_cons; cbn [entries reached];
    (destruct (string_dec key category) as [->|Hkey];
     [rewrite get_set_same | rewrite get_set_other by exact Hkey]).
  - destruct q' as [|k2 q'']; cbn [children].
    + split; [auto | intros _; discriminate].
    + rewrite Hchildren. pose proof (initial_part_nil (k2 :: q'')).
      split; [auto | intros [H'|[_ [H'|H']]]; auto; try discriminate; tauto].
  - split; [auto | intros [H|[H _]]; [exact H | contradiction]].
  - destruct q' as [|k2 q'']; cbn [children].
    + split; [auto | intros _; discriminate].
    + rewrite IH, Hchildren.
      split; [intros [H|H]; auto | intros [H|[_ [H|H]]]; auto; discriminate].
  - split; [auto | intros [H|[H _]]; [exact H | contradiction]].
Qed.

Lemma blocked_ordinary key es : inherited key = false -> blocked key es = false.
Proof. intros H. unfold blocked. rewrite H. reflexivity. Qed.

Lemma merge_ordinary data path ds :
  ordinary path -> snd (addBenchmarkDurations data path ds) = Ok tt.
Proof.
  intros H. revert data. induction H as [|category rest Hc _ IH]; intros data;
    [reflexivity|].
  rewrite addBenchmarkDurations_cons, blocked_ordinary by exact Hc. cbv zeta.
  destruct rest; [reflexivity | apply IH].
Qed.

Lemma reached_ordinary data path : ordinary path -> reached data path = path.
Proof.
  intros H. revert data. induction H as [|category rest Hc _ IH]; intros data;
    [reflexivity|].
  cbn [reached]. rewrite blocked_ordinary by exact Hc. rewrite IH. reflexivity.
Qed.

Lemma blocked_after_merge data path ds key :
  blocked key (entries (fst (addBenchmarkDurations data path ds)))
  = blocked key (entries data).
Proof.
  destruct path as [|category rest]; [reflexivity|].
  rewrite addBenchmarkDurations_cons. cbv zeta.
  destruct (blocked category (entries data)) eqn:Hblocked; [reflexivity|].
  unfold blocked in *. destruct (inherited key) eqn:Hkey; [|reflexivity].
  cbn [andb]. f_equal.
  destruct (string_dec key category) as [->|Hne].
  - rewrite Hkey in Hblocked. cbn [andb] in Hblocked.
    destruct (own_key category (entries data)); [|discriminate].
    destruct rest; cbn [fst entries]; apply own_key_set_same.
  - destruct rest; cbn [fst entries]; apply own_key_set_other, Hne.
Qed.

Lemma children_after_merge data path ds key :
  exists rest,
    children (ensured key (entries (fst (addBenchmarkDurations data path ds))))
    = fst (addBenchmarkDurations (children (ensured key (entries data))) rest ds).
Proof.
  destruct path as [|category rest]; [exists []; reflexivity|].
  rewrite addBenchmarkDurations_cons. cbv zeta.
  destruct (blocked category (entries data)); [exists []; reflexivity|].
  destruct (string_dec key category) as [->|Hne].
  - destruct rest as [|next rest]; cbn [fst entries]; rewrite ensured_set_same;
      cbn [children]; [exists [] | exists (next :: rest)]; reflexivity.
  - exists []. destruct rest; cbn [fst entries];
      rewrite ensured_set_other by exact Hne; reflexivity.
Qed.

(** Whether a merge throws does not depend on the merges made before. *)
Lemma outcome_after_merge data p1 p2 s1 s2 :
  snd (addBenchmarkDurations (fst (addBenchmarkDurations data p2 s2)) p1 s1)
  = snd (addBenchmarkDurations data p1 s1).
Proof.
  revert data p2. induction p1 as [|category rest IH]; intros data p2; [reflexivity|].
  rewrite !addBenchmarkDurations_cons, blocked_after_merge. cbv zeta.
  destruct (blocked category (entries data)); [reflexivity|].
  destruct rest as [|next rest]; [reflexivity|]. cbn [snd].
  destruct (children_after_merge data p2 s2 category) as [r ->]. apply IH.
Qed.

Lemma reached_after_merge data p1 p2 s2 :
  reached (fst (addBenchmarkDurations data p2 s2)) p1 = reached data p1.
Proof.
  revert data p2. induction p1 as [|category rest IH]; intros data p2; [reflexivity|].
  cbn [reached]. rewrite blocked_after_merge.
  destruct (blocked category (entries data)); [reflexivity|].
  destruct (children_after_merge data p2 s2 category) as [r ->]. rewrite IH. reflexivity.
Qed.

(** One merge after another. *)
Definition then_incorporate (first : Benchmark * Result unit) (description : list string)
  (measurement : Measurement) : Benchmark * Result unit :=
  match first with
  | (this, Ok _) => incorporate description measurement this
  | (this, Raise e) => (this, Raise e)
  end.

Lemma app_not_nil {A : Type} (xs ys : list A) : ys <> [] -> (xs ++ ys)%list <> [].
Proof. intros H Happ. apply app_eq_nil in Happ. destruct Happ. contradiction. Qed.

Lemma incorporate_merge description measurement this :
  description <> [] ->
  incorporate description measurement this
  = ({| data := fst (addBenchmarkDurations (data this) description
                       (Measurement.durations measurement));
        events := events this |},
     snd (addBenchmarkDurations (data this) description
            (Measurement.durations measurement))).
Proof.
  intros Hne. unfold incorporate. destruct description; [congruence|].
  cbn [length Nat.eqb].
  destruct (addBenchmarkDurations (data this) (s :: description)
              (Measurement.durations measurement)). reflexivity.
Qed.

Lemma merge_blocked data key rest ds :
  inherited key = true -> own_key key (entries data) = false ->
  addBenchmarkDurations data (key :: rest) ds = (data, Raise TypeError).
Proof.
  intros Hinherited Hown. rewrite addBenchmarkDurations_cons.
  unfold blocked. rewrite Hinherited, Hown. reflexivity.
Qed.

(** C3: merging samples under a non-empty path of ordinary names succeeds,
    creates exactly the missing nodes along the path, appends the samples to
    those filed directly under the path, all of them, and changes the
    samples of no other path.  So a path and its prefix coexist: after
    merging under A, B and under A, from any tree and in either order, the
    result is the same tree, where node A has direct samples and a child B
    with direct samples.  For a segment that names a member of
    [Object.prototype] and has no node yet, no node is created: the merge
    throws a TypeError and leaves the level as it was; so does
    [incorporate(["toString"], m)] on a new Benchmark. *)
Theorem tree_merge :
  (forall (data : BenchmarkData) (path : list string) (samples : list R),
      path <> [] -> ordinary path ->
      let after := addBenchmarkDurations data path samples in
      snd after = Ok tt
      /\ (forall q, find_node (fst after) q <> None
                    <-> find_node data q <> None \/ initial_part q path)
      /\ (forall q, samples_at (fst after) q
                    = if list_eq_dec string_dec q path
                      then (samples_at data path ++ samples)%list
                      else samples_at data q))
  /\ (forall (this : Benchmark) (ab a : Measurement),
         Measurement.durations ab <> [] ->
         Measurement.durations a <> [] ->
         exists final node_a node_b,
           then_incorporate (incorporate ["A"; "B"] ab this) ["A"] a = (final, Ok tt)
           /\ then_incorporate (incorporate ["A"] a this) ["A"; "B"] ab = (final, Ok tt)
           /\ get "A" (entries (data final)) = Some node_a
           /\ durations node_a
              = (samples_at (data this) ["A"] ++ Measurement.durations a)%list
           /\ durations node_a <> []
           /\ get "B" (entries (children node_a)) = Some node_b
           /\ durations node_b
              = (samples_at (data this) ["A"; "B"] ++ Measurement.durations ab)%list
           /\ durations node_b <> [])
  /\ (forall (data : BenchmarkData) (key : string) (rest : list string)
        (samples : list R),
         inherited key = true -> own_key key (entries data) = false ->
         addBenchmarkDurations data (key :: rest) samples = (data, Raise TypeError))
  /\ (forall measurement : Measurement,
         incorporate ["toString"] measurement new_Benchmark
         = (new_Benchmark, Raise TypeError))
  /\ (forall measurement : Measurement,
         find_node (data (fst (incorporate ["toString"] measurement new_Benchmark)))
           ["toString"] = None).
Proof.
  split; [|split; [|split; [|split]]].
  - intros data path samples Hne Hordinary after. subst after.
    pose proof (merge_ordinary data path samples Hordinary) as Hok.
    split; [exact Hok|]. split; intros q.
    + rewrite find_node_merge, reached_ordinary by exact Hordinary. tauto.
    + rewrite samples_at_merge by exact Hne. rewrite Hok. reflexivity.
  - intros this ab a Hab Ha.
    set (es := entries (data this)).
    set (old_a := ensured "A" es).
    set (old_b := ensured "B" (entries (children old_a))).
    set (node_b := mkInfo (durations old_b ++ Measurement.durations ab)%list
                     (children old_b)).
    set (node_a := mkInfo (durations old_a ++ Measurement.durations a)%list
                     (Object (set "B" node_b (entries (children old_a))))).
    exists {| data := Object (set "A" node_a es); events := events this |}, node_a, node_b.
    assert (Hsamples_a : samples_at (data this) ["A"] = durations old_a)
      by apply samples_at_cons.
    assert (Hsamples_b : samples_at (data this) ["A"; "B"] = durations old_b).
    { rewrite samples_at_cons. fold es old_a. apply samples_at_cons. }
    repeat split.
    + unfold then_incorporate, incorporate. cbn [length Nat.eqb data events].
      repeat (rewrite addBenchmarkDurations_cons; cbv zeta;
              rewrite blocked_ordinary by reflexivity;
              cbn [entries durations children fst snd]).
      cbn [length Nat.eqb data events].
      repeat (rewrite addBenchmarkDurations_cons; cbv zeta;
              rewrite blocked_ordinary by reflexivity;
              cbn [entries durations children fst snd]).
      cbn [entries data]. fold es old_a. rewrite ?ensured_set_same, ?set_set.
      cbn [durations children]. reflexivity.
    + unfold then_incorporate, incorporate. cbn [length Nat.eqb data events].
      repeat (rewrite addBenchmarkDurations_cons; cbv zeta;
              rewrite blocked_ordinary by reflexivity;
              cbn [entries durations children fst snd]).
      cbn [length Nat.eqb data events].
      repeat (rewrite addBenchmarkDurations_cons; cbv zeta;
              rewrite blocked_ordinary by reflexivity;
              cbn [entries durations children fst snd]).
      cbn [entries data]. fold es old_a. rewrite ?ensured_set_same, ?set_set.
      cbn [durations children]. reflexivity.
    + cbn [data entries]. apply get_set_same.
    + rewrite Hsamples_a. reflexivity.
    + apply app_not_nil, Ha.
    + cbn [children entries]. apply get_set_same.
    + rewrite Hsamples_b. reflexivity.
    + apply app_not_nil, Hab.
  - intros data key rest samples. apply merge_blocked.
  - intros measurement. reflexivity.
  - intros measurement. reflexivity.
Qed.

End TreeFacts.
(** ** The order of the keys *)

Section KeyOrder.

(** [Object.keys(data)] *)
Definition keys (data : BenchmarkData) : list string := map fst (entries data).

(** Whether [next] may come after [key] when an object lists its keys:
    after an array index come larger array indices and the keys that are no
    array index; after any other key comes no array index. *)
Definition may_follow (key next : string) : bool :=
  match array_index key, array_index next with
  | Some n, Some m => (n <? m)%N
  | Some _, None => true
  | None, Some _ => false
  | None, None => true
  end.

(** The array indices come first, in ascending order. *)
Fixpoint listing_order (ks : list string) : bool :=
  match ks with
  | [] => true
  | key :: rest => forallb (may_follow key) rest && listing_order rest
  end.

(** Every object of the tree lists its keys in that order. *)
Inductive well_listed : BenchmarkData -> Prop :=
| well_listed_object es :
    listing_order (map fst es) = true ->
    Forall (fun entry : string * Info => well_listed (children (snd entry))) es ->
    well_listed (Object es).

(** The keys of a level after a new key has come in. *)
Definition key_added (key : string) (before after : list string) : Prop :=
  match array_index key with
  | None => after = (before ++ [key])%list
  | Some _ =>
      exists l1 l2, before = (l1 ++ l2)%list /\ after = (l1 ++ key :: l2)%list
  end.

Fixpoint pow10 (k : nat) : N :=
  match k with
  | O => 1
  | S k' => 10 * pow10 k'
  end.

(** Array indices are written without sign, fraction, exponent or leading
    zero, and stop below 2^32 - 1. *)
Example array_index_examples :
  array_index "0" = Some 0%N
  /\ array_index "42" = Some 42%N
  /\ array_index "4294967294" = Some 4294967294%N
  /\ array_index "4294967295" = None
  /\ array_index "042" = None
  /\ array_index "-1" = None
  /\ array_index "1.5" = None
  /\ array_index "1e3" = None
  /\ array_index "" = None
  /\ array_index "b" = None.
Proof. repeat split; reflexivity. Qed.

Lemma pow10_positive k : (0 < pow10 k)%N.
Proof. induction k; cbn [pow10]; lia. Qed.

Lemma pow10_le k k' : (k <= k')%nat -> (pow10 k <= pow10 k')%N.
Proof.
  induction 1 as [|k' _ IH]; [lia|]. cbn [pow10].
  pose proof (pow10_positive k'). lia.
Qed.

Lemma digit_lt c d : digit c = Some d -> (d < 10)%N.
Proof.
  unfold digit. destruct (_ && _) eqn:H; [|discriminate].
  intros [= <-]. apply andb_true_iff in H. destruct H as [H1 H2].
  apply N.leb_le in H1, H2. lia.
Qed.

Lemma digit_inj c c' d : digit c = Some d -> digit c' = Some d -> c = c'.
Proof.
  unfold digit.
  destruct (_ && _) eqn:H; [|discriminate].
  destruct ((48 <=? N_of_ascii c')%N && _) eqn:H'; [|discriminate].
  intros [= <-] [= Heq].
  apply andb_true_iff in H, H'. destruct H as [H1 _], H' as [H1' _].
  apply N.leb_le in H1, H1'.
  rewrite <- (ascii_N_embedding c), <- (ascii_N_embedding c'). f_equal. lia.
Qed.

Lemma digit_zero c : digit c = Some 0%N -> c = "0"%char.
Proof. intros H. apply (digit_inj c "0"%char 0%N H). reflexivity. Qed.

Lemma decimal_bounds s a n :
  decimal s a = Some n ->
  (a * pow10 (String.length s) <= n < (a + 1) * pow10 (String.length s))%N.
Proof.
  revert a. induction s as [|c s IH]; intros a; cbn [decimal String.length pow10].
  - intros [= <-]. lia.
  - destruct (digit c) as [d|] eqn:Hd; [|discriminate].
    intros H. apply IH in H. apply digit_lt in Hd.
    pose proof (pow10_positive (String.length s)). nia.
Qed.

Lemma decimal_inj s t a b n :
  String.length s = String.length t ->
  decimal s a = Some n -> decimal t b = Some n -> a = b /\ s = t.
Proof.
  revert t a b. induction s as [|c s IH]; intros [|c' t] a b Hlen; try discriminate;
    cbn [decimal].
  - intros [= <-] [= <-]. auto.
  - destruct (digit c) as [d|] eqn:Hd; [|discriminate].
    destruct (digit c') as [d'|] eqn:Hd'; [|discriminate].
    intros Hs Ht. injection Hlen as Hlen.
    destruct (IH t _ _ Hlen Hs Ht) as [Hacc ->].
    pose proof (digit_lt _ _ Hd). pose proof (digit_lt _ _ Hd').
    assert (a = b) by lia. assert (d = d') by lia. subst.
    rewrite (digit_inj _ _ _ Hd Hd'). auto.
Qed.

(** The number of digits of an array index is determined by its value. *)
Lemma array_index_size key n :
  array_index key = Some n ->
  decimal key 0 = Some n
  /\ key <> ""
  /\ (String.length key = 1%nat
      \/ (pow10 (String.length key - 1) <= n)%N).
Proof.
  unfold array_index. destruct key as [|c rest]; [discriminate|].
  destruct (Ascii.eqb c "0" && negb (String.eqb rest "")) eqn:Hzero; [discriminate|].
  destruct (decimal (String c rest) 0) as [v|] eqn:Hv; [|discriminate].
  destruct (v <? 4294967295)%N; [|discriminate].
  intros [= <-]. split; [reflexivity|]. split; [discriminate|].
  cbn [decimal] in Hv. destruct (digit c) as [d|] eqn:Hd; [|discriminate].
  apply decimal_bounds in Hv.
  destruct rest as [|c2 rest]; [left; reflexivity|]. right.
  assert (d <> 0%N).
  { intros ->. apply digit_zero in Hd. subst c. discriminate. }
  change (String.length (String c (String c2 rest)) - 1)%nat
    with (S (String.length rest)).
  change (String.length (String c2 rest)) with (S (String.length rest)) in Hv.
  nia.
Qed.

Lemma array_index_inj s t n :
  array_index s = Some n -> array_index t = Some n -> s = t.
Proof.
  intros Hs Ht.
  destruct (array_index_size _ _ Hs) as (Hds & Hnes & Hsize_s).
  destruct (array_index_size _ _ Ht) as (Hdt & Hnet & Hsize_t).
  pose proof (decimal_bounds _ _ _ Hds) as Hbs.
  pose proof (decimal_bounds _ _ _ Hdt) as Hbt.
  assert (Hlen : String.length s = String.length t).
  { destruct s as [|c s]; [congruence|]. destruct t as [|c' t]; [congruence|].
    cbn [String.length Nat.sub] in *. rewrite !Nat.sub_0_r in *.
    f_equal.
    destruct (Nat.lt_trichotomy (String.length s) (String.length t)) as [Hlt|[Heq|Hgt]];
      [exfalso | exact Heq | exfalso].
    - destruct Hsize_t as [Hone|Hlow]; [lia|].
      pose proof (pow10_le (S (String.length s)) (String.length t) Hlt).
      cbn [pow10] in *. lia.
    - destruct Hsize_s as [Hone|Hlow]; [lia|].
      pose proof (pow10_le (S (String.length t)) (String.length s) Hgt).
      cbn [pow10] in *. lia. }
  apply (decimal_inj s t 0%N 0%N n Hlen Hds Hdt).
Qed.

Lemma own_key_in key es : own_key key es = true <-> In key (map fst es).
Proof.
  induction es as [|[k info] es IH]; simpl.
  - split; [discriminate | tauto].
  - destruct (String.eqb_spec key k) as [->|Hne].
    + split; auto.
    + rewrite IH. split; [auto | intros [H|H]; [congruence | exact H]].
Qed.

Lemma keys_replace key info es : map fst (replace key info es) = map fst es.
Proof.
  induction es as [|[k old] es IH]; [reflexivity|]. cbn [replace].
  destruct (String.eqb key k); cbn [map fst]; [reflexivity | rewrite IH; reflexivity].
Qed.

Lemma keys_place n key info es :
  exists l1 l2,
    map fst es = (l1 ++ l2)%list /\ map fst (place n key info es) = (l1 ++ key :: l2)%list.
Proof.
  induction es as [|[k old] es (l1 & l2 & H1 & H2)]; cbn [place].
  - exists [], []. auto.
  - destruct (array_index k) as [m|]; [destruct (n <? m)%N|].
    + exists [], (map fst ((k, old) :: es)). auto.
    + exists (k :: l1), l2. cbn [map fst app]. rewrite H1, H2. auto.
    + exists [], (map fst ((k, old) :: es)). auto.
Qed.

Lemma forallb_place (p : string -> bool) n key info es :
  forallb p (map fst (place n key info es)) = p key && forallb p (map fst es).
Proof.
  destruct (keys_place n key info es) as (l1 & l2 & -> & ->).
  rewrite !forallb_app. cbn [forallb].
  destruct (forallb p l1), (p key), (forallb p l2); reflexivity.
Qed.

Lemma keys_set key info es :
  if own_key key es then map fst (set key info es) = map fst es
  else key_added key (map fst es) (map fst (set key info es)).
Proof.
  unfold set, key_added. destruct (own_key key es); [apply keys_replace|].
  destruct (array_index key) as [n|]; [apply keys_place|].
  rewrite map_app. reflexivity.
Qed.

Lemma listing_order_place n key info es :
  listing_order (map fst es) = true ->
  array_index key = Some n -> own_key key es = false ->
  listing_order (map fst (place n key info es)) = true.
Proof.
  intros Horder Hindex. induction es as [|[k old] es IH]; [reflexivity|].
  cbn [map fst listing_order own_key] in Horder |- *.
  apply andb_true_iff in Horder. destruct Horder as [Hk Horder].
  destruct (String.eqb_spec key k) as [|Hne]; [discriminate|]. intros Hown.
  cbn [place]. destruct (array_index k) as [m|] eqn:Hm.
  - destruct (n <? m)%N eqn:Hnm.
    + cbn [map fst listing_order forallb]. rewrite Hk, Horder.
      unfold may_follow at 1. rewrite Hindex, Hm, Hnm. cbn [andb].
      rewrite andb_true_r. apply forallb_forall. intros x Hx.
      rewrite forallb_forall in Hk. specialize (Hk x Hx).
      unfold may_follow in *. rewrite Hindex. rewrite Hm in Hk.
      destruct (array_index x); [|reflexivity].
      apply N.ltb_lt in Hnm, Hk. apply N.ltb_lt. lia.
    + cbn [map fst listing_order]. rewrite IH by assumption.
      rewrite forallb_place, Hk. unfold may_follow. rewrite Hm, Hindex.
      rewrite !andb_true_r. apply N.ltb_lt. apply N.ltb_ge in Hnm.
      assert (m <> n); [|lia].
      intros ->. apply Hne. apply (array_index_inj key k n); assumption.
  - cbn [map fst listing_order forallb]. rewrite Hk, Horder.
    unfold may_follow at 1. rewrite Hindex, Hm. cbn [andb].
    rewrite andb_true_r. apply forallb_forall. intros x Hx.
    rewrite forallb_forall in Hk. specialize (Hk x Hx).
    unfold may_follow in *. rewrite Hindex. rewrite Hm in Hk.
    destruct (array_index x); [discriminate | reflexivity].
Qed.

Lemma listing_order_last key ks :
  listing_order ks = true -> array_index key = None ->
  listing_order (ks ++ [key]) = true.
Proof.
  intros Horder Hkey. induction ks as [|k ks IH]; [reflexivity|].
  cbn [app listing_order] in Horder |- *.
  apply andb_true_iff in Horder. destruct Horder as [Hk Horder].
  rewrite IH by exact Horder. rewrite forallb_app, Hk. cbn [forallb].
  unfold may_follow. rewrite Hkey. destruct (array_index k); reflexivity.
Qed.

Lemma listing_order_set key info es :
  listing_order (map fst es) = true -> listing_order (map fst (set key info es)) = true.
Proof.
  intros Horder. unfold set. destruct (own_key key es) eqn:Hown.
  - rewrite keys_replace. exact Horder.
  - destruct (array_index key) as [n|] eqn:Hindex.
    + apply listing_order_place; assumption.
    + rewrite map_app. apply listing_order_last; assumption.
Qed.

Lemma NoDup_keys_set key info es :
  NoDup (map fst es) -> NoDup (map fst (set key info es)).
Proof.
  intros H. pose proof (keys_set key info es) as Hkeys.
  destruct (own_key key es) eqn:Hown; [rewrite Hkeys; exact H|].
  assert (Hnew : ~ In key (map fst es)).
  { intros Hin. apply own_key_in in Hin. congruence. }
  unfold key_added in Hkeys. destruct (array_index key).
  - destruct Hkeys as (l1 & l2 & Hbefore & ->). rewrite Hbefore in *.
    apply (Permutation_NoDup (Permutation_middle l1 l2 key)).
    constructor; [exact Hnew | exact H].
  - rewrite Hkeys. apply NoDup_app; [exact H | repeat constructor; simpl; tauto |].
    intros x Hx [<-|[]]. contradiction.
Qed.

Lemma Forall_set (P : string * Info -> Prop) key info es :
  (forall k, P (k, info)) -> Forall P es -> Forall P (set key info es).
Proof.
  intros Hinfo Hes. unfold set. destruct (own_key key es).
  - induction Hes as [|[k old] es Hold Hes IH]; cbn [replace]; [constructor|].
    destruct (String.eqb key k); constructor; auto.
  - destruct (array_index key) as [n|].
    + induction Hes as [|[k old] es Hold Hes IH]; cbn [place].
      * constructor; [apply Hinfo | constructor].
      * destruct (array_index k) as [m|]; [destruct (n <? m)%N|];
          repeat (constructor; auto).
    + apply Forall_app. split; [exact Hes | constructor; [apply Hinfo | constructor]].
Qed.

Lemma get_in key info es : get key es = Some info -> In (key, info) es.
Proof.
  induction es as [|[k old] es IH]; simpl; [discriminate|].
  destruct (String.eqb_spec key k) as [->|Hne].
  - intros H. injection H as ->. left. reflexivity.
  - intros H. right. apply IH, H.
Qed.

Lemma Forall_ensured (P : BenchmarkData -> Prop) key es :
  P (Object []) ->
  Forall (fun entry : string * Info => P (children (snd entry))) es ->
  P (children (ensured key es)).
Proof.
  intros Hempty H. unfold ensured. destruct (get key es) as [info|] eqn:Hget.
  - apply get_in in Hget. rewrite Forall_forall in H. apply (H _ Hget).
  - exact Hempty.
Qed.

Lemma well_listed_empty : well_listed (Object []).
Proof. constructor; [reflexivity | constructor]. Qed.

Lemma well_listed_merge data path samples :
  well_listed data -> well_listed (fst (addBenchmarkDurations data path samples)).
Proof.
  revert data. induction path as [|category rest IH]; intros data Hdata; [exact Hdata|].
  rewrite addBenchmarkDurations_cons. cbv zeta.
  destruct (blocked category (entries data)); [exact Hdata|].
  destruct Hdata as [es Horder Hbelow]. cbn [entries].
  pose proof (Forall_ensured well_listed category es well_listed_empty Hbelow)
    as Hensured.
  destruct rest as [|next rest]; cbn [fst]; constructor;
    try (apply listing_order_set, Horder);
    (apply Forall_set; [|exact Hbelow]); intros k; cbn [snd children];
    [exact Hensured | apply IH, Hensured].
Qed.

(** The keys of the top level after a merge. *)
Lemma keys_merge data key rest samples :
  let after := keys (fst (addBenchmarkDurations data (key :: rest) samples)) in
  if has_key key (entries data) then after = keys data
  else key_added key (keys data) after.
Proof.
  intros after. subst after. rewrite addBenchmarkDurations_cons. cbv zeta.
  unfold has_key, blocked, keys.
  destruct (own_key key (entries data)) eqn:Hown.
  - rewrite andb_false_r. cbn [orb].
    destruct rest; cbn [fst entries];
      match goal with
      | |- map fst (set ?k ?i ?es) = _ =>
          pose proof (keys_set k i es) as H; rewrite Hown in H; exact H
      end.
  - rewrite andb_true_r. cbn [orb]. destruct (inherited key); [reflexivity|].
    destruct rest; cbn [fst entries];
      match goal with
      | |- key_added _ _ (map fst (set ?k ?i ?es)) =>
          pose proof (keys_set k i es) as H; rewrite Hown in H; exact H
      end.
Qed.

End KeyOrder.
(** ** Benchmark.record *)

Section RecordFacts.

Context {host : Host}.

(** The path under which a call of record files its measurement. *)
Definition path_of (arguments : RecordArguments) : list string :=
  match arguments with
  | Bare _ _ => []
  | Described (Text s) _ _ => [s]
  | Described (Path p) _ _ => p
  end.

Definition work_of (arguments : RecordArguments) : Work :=
  match arguments with
  | Bare fn _ => fn
  | Described _ fn _ => fn
  end.

(** The caller's options over the defaults. *)
Definition options_of (arguments : RecordArguments) : MeasureOptions :=
  match arguments with
  | Bare _ options => spread defaultMeasureOptions (or_else options no_options)
  | Described _ _ options => spread defaultMeasureOptions (or_else options no_options)
  end.

(** A description that is given is not empty. *)
Definition well_described (arguments : RecordArguments) : Prop :=
  match arguments with
  | Bare _ _ => True
  | Described description _ _ => description_length description <> O
  end.

(** The merge of record: the tree it leaves and how it ends. *)
Definition merged (arguments : RecordArguments) (measurement : Measurement)
  (this : Benchmark) : Benchmark * Result unit :=
  match path_of arguments with
  | [] => (this, Ok tt)
  | _ :: _ =>
      let after := addBenchmarkDurations (data this) (path_of arguments)
                     (Measurement.durations measurement) in
      ({| data := fst after; events := events this |}, snd after)
  end.

Lemma merged_events (arguments : RecordArguments) (measurement : Measurement)
  (this : Benchmark) :
  events (fst (merged arguments measurement this)) = events this.
Proof. unfold merged. destruct (path_of arguments); reflexivity. Qed.

Lemma merged_data (arguments : RecordArguments) (measurement : Measurement)
  (this : Benchmark) :
  data (fst (merged arguments measurement this))
  = match path_of arguments with
    | [] => data this
    | _ :: _ => fst (addBenchmarkDurations (data this) (path_of arguments)
                       (Measurement.durations measurement))
    end.
Proof. unfold merged. destruct (path_of arguments); reflexivity. Qed.

Lemma merged_ordinary (arguments : RecordArguments) (measurement : Measurement)
  (this : Benchmark) :
  ordinary (path_of arguments) -> snd (merged arguments measurement this) = Ok tt.
Proof.
  intros H. unfold merged. destruct (path_of arguments) eqn:Hpath; [reflexivity|].
  cbv zeta. cbn [snd]. apply merge_ordinary, H.
Qed.

(** What record does once the iterations have produced [measurement]. *)
Lemma record_after_measure (arguments : RecordArguments) (schedule : list nat)
  (this : Benchmark) (env env' : Env) (measurement : Measurement) :
  well_described arguments ->
  measure (work_of arguments) (as_partial (with_verify (options_of arguments) false))
    schedule env = (env', Ok measurement) ->
  record arguments schedule this env
  = match snd (merged arguments measurement this) with
    | Raise e => ((fst (merged arguments measurement this), env'), Raise e)
    | Ok _ =>
        ((emit (path_of arguments) measurement (fst (merged arguments measurement this)),
          env'),
         match verifyMeasurement measurement (with_verify (options_of arguments) true) with
         | Ok _ => Ok measurement
         | Raise e => Raise e
         end)
    end.
Proof.
  intros Hwell Hmeasure. unfold record, merged.
  destruct arguments as [fn options | description fn options]; simpl in *.
  - rewrite Hmeasure. simpl.
    destruct (verifyMeasurement measurement _); reflexivity.
  - destruct (Nat.eqb_spec (description_length description) 0) as [|_]; [contradiction|].
    rewrite Hmeasure.
    assert (Hlen : match description with Text s => [s] | Path p => p end <> [])
      by (destruct description as [s|[|? ?]]; simpl in *; congruence).
    destruct (match description with Text s => [s] | Path p => p end)
      as [|key path] eqn:Hpath; [congruence|].
    cbn [length Nat.ltb Nat.leb]. rewrite incorporate_merge by discriminate.
    cbn [fst snd].
    destruct (snd (addBenchmarkDurations (data this) (key :: path)
                     (Measurement.durations measurement))); [|reflexivity].
    destruct (verifyMeasurement measurement _); reflexivity.
Qed.

(** C2: when the description, if there is one, is not empty and holds
    ordinary names only, and the iterations of the call have produced a
    Measurement, exactly one record event is added; the tree its listeners
    find already holds the measurement (when there is a description), and
    the event is there whether the threshold check that follows lets the
    call return or makes it fail. *)
Theorem record_emits_once (arguments : RecordArguments) (schedule : list nat)
  (this : Benchmark) (env env' : Env) (measurement : Measurement) :
  well_described arguments ->
  ordinary (path_of arguments) ->
  measure (work_of arguments) (as_partial (with_verify (options_of arguments) false))
    schedule env = (env', Ok measurement) ->
  let outcome := record arguments schedule this env in
  let this' := fst (fst outcome) in
  data this' = match path_of arguments with
               | [] => data this
               | _ :: _ => fst (addBenchmarkDurations (data this) (path_of arguments)
                                  (Measurement.durations measurement))
               end
  /\ events this' = (events this ++
                     [{| event_description := path_of arguments;
                         event_measurement := measurement;
                         event_data := data this' |}])%list
  /\ snd outcome
     = match verifyMeasurement measurement (with_verify (options_of arguments) true) with
       | Ok _ => Ok measurement
       | Raise e => Raise e
       end.
Proof.
  intros Hwell Hordinary Hmeasure outcome this'. subst this' outcome.
  rewrite (record_after_measure arguments schedule this env env' measurement Hwell Hmeasure).
  unfold merged. destruct (path_of arguments) as [|key path] eqn:Hpath.
  - simpl. auto.
  - cbv zeta. cbn [snd]. rewrite (merge_ordinary _ _ _ Hordinary). simpl. auto.
Qed.

(** C6: record without a description runs measure with [verify] false;
    the tree is left as it was; a failure of the iterations is the failure
    of the call; otherwise the Measurement is emitted with the empty path
    and then checked against the caller's thresholds, and is returned when
    the check passes. *)
Theorem record_without_description (fn : Work) (options : option PartialMeasureOptions)
  (schedule : list nat) (this : Benchmark) (env env' : Env)
  (measured : Result Measurement) :
  let mergedOptions := spread defaultMeasureOptions (or_else options no_options) in
  measure fn (as_partial (with_verify mergedOptions false)) schedule env
  = (env', measured) ->
  let outcome := record (Bare fn options) schedule this env in
  verify (spread defaultMeasureOptions (as_partial (with_verify mergedOptions false)))
  = false
  /\ data (fst (fst outcome)) = data this
  /\ match measured with
     | Raise e => outcome = ((this, env'), Raise e)
     | Ok measurement =>
         outcome
         = (({| data := data this;
                events := (events this ++
                           [{| event_description := [];
                               event_measurement := measurement;
                               event_data := data this |}])%list |}, env'),
            match verifyMeasurement measurement (with_verify mergedOptions true) with
            | Ok _ => Ok measurement
            | Raise e => Raise e
            end)
     end.
Proof.
  intros mergedOptions Hmeasure outcome. subst outcome. unfold record.
  fold mergedOptions. simpl. rewrite Hmeasure.
  split; [reflexivity|].
  destruct measured as [measurement | e]; simpl.
  - destruct (verifyMeasurement measurement _); simpl; auto.
  - auto.
Qed.

(** C10: record with the empty string as description fails at once with
    the error "The description must not be empty": no iteration has run,
    nothing is merged and nothing is emitted.  Any other string stands for
    the path of that single name. *)
Theorem record_empty_string (fn : Work) (options : option PartialMeasureOptions)
  (schedule : list nat) (this : Benchmark) (env : Env) :
  record (Described (Text "") fn options) schedule this env
  = ((this, env), Raise (Error "The description must not be empty"))
  /\ forall s, s <> "" ->
       record (Described (Text s) fn options) schedule this env
       = record (Described (Path [s]) fn options) schedule this env.
Proof.
  split; [reflexivity|].
  intros s Hs. unfold record. simpl.
  destruct s as [|c s]; [congruence | reflexivity].
Qed.

End RecordFacts.

(** ** The report *)

Section ReportFacts.

Context {host : Host}.

(** Induction on a tree: a property of every child tree of an object gives
    the property of the object. *)
Fixpoint BenchmarkData_induction (P : BenchmarkData -> Prop)
  (step : forall es, Forall (fun entry => P (children (snd entry))) es -> P (Object es))
  (data : BenchmarkData) {struct data} : P data :=
  match data with
  | Object es =>
      step es
        ((fix all (l : list (string * Info)) : Forall (fun entry => P (children (snd entry))) l :=
            match l with
            | [] => Forall_nil _
            | (key, mkInfo ds cs) :: rest =>
                Forall_cons (key, mkInfo ds cs) (BenchmarkData_induction P step cs) (all rest)
            end) es)
  end.

(** The report as the specification words it: for every node, in order,
    its title line, the line of its statistics when it has samples, a blank
    line when it has samples and children, and then its children one level
    deeper; the lines are joined by line breaks. *)
Fixpoint indentation (depth : nat) : string :=
  match depth with
  | O => EmptyString
  | S depth' => String " " (String " " (indentation depth'))
  end.

Definition line_break : string := String "010" EmptyString.

Fixpoint text_of (lines : list string) : string :=
  match lines with
  | [] => EmptyString
  | line :: rest =>
      match rest with
      | [] => line
      | _ :: _ => line ++ line_break ++ text_of rest
      end
  end.

Definition title_line (depth : nat) (key : string) : string :=
  indentation depth ++ key ++ ":".

Definition statistics_line (depth : nat) (samples : list R) : string :=
  indentation (depth + 1)
    ++ number_to_string (mathjs_round (mathjs.mean samples) 5)
    ++ " ms (+/- "
    ++ number_to_string (mathjs_round (Measurement.marginOfError (Measurement.make samples)) 5)
    ++ " ms) from "
    ++ number_to_string (INR (length samples))
    ++ " iterations".

Lemma repeat_string_indentation (depth : nat) :
  repeat_string "  " depth = indentation depth.
Proof. induction depth as [|depth IH]; [reflexivity|]. cbn. rewrite IH. reflexivity. Qed.

Lemma join_text_of (lines : list string) : join lines newline = text_of lines.
Proof.
  unfold join. induction lines as [|line rest IH]; [reflexivity|].
  cbn [String.concat text_of]. destruct rest; [reflexivity|]. rewrite IH. reflexivity.
Qed.

Fixpoint render (level : BenchmarkData) (depth : nat) {struct level} : list string :=
  match level with
  | Object es =>
      flat_map
        (fun entry : string * Info =>
           match entry with
           | (key, mkInfo samples below) =>
               ([title_line depth key]
                  ++ match samples with
                     | [] => []
                     | _ :: _ => [statistics_line depth samples]
                     end
                  ++ match samples, entries below with
                     | _ :: _, _ :: _ => [""]
                     | _, _ => []
                     end
                  ++ render below (depth + 1))%list
           end)
        es
  end.

Lemma fold_left_append {A B : Type} (body : list B -> A -> list B) (f : A -> list B)
  (xs : list A) :
  Forall (fun x => forall acc, body acc x = (acc ++ f x)%list) xs ->
  forall acc, fold_left body xs acc = (acc ++ flat_map f xs)%list.
Proof.
  induction 1 as [|x xs Hx _ IH]; intros acc; simpl.
  - symmetry. apply app_nil_r.
  - rewrite IH, Hx. symmetry. apply app_assoc.
Qed.

Lemma render_no_entries (level : BenchmarkData) (depth : nat) :
  entries level = [] -> render level depth = [].
Proof. destruct level as [es]. simpl. intros ->. reflexivity. Qed.

(** The loop of reportLevel produces the lines of [render]. *)
Lemma reportLevel_render (level : BenchmarkData) (depth : nat) :
  reportLevel level depth = render level depth.
Proof.
  revert depth. induction level as [es IH] using BenchmarkData_induction.
  intros depth. cbn [reportLevel render].
  rewrite fold_left_append with (f := fun entry : string * Info =>
    match entry with
    | (key, mkInfo samples below) =>
        ([title_line depth key]
           ++ match samples with
              | [] => []
              | _ :: _ => [statistics_line depth samples]
              end
           ++ match samples, entries below with
              | _ :: _, _ :: _ => [""]
              | _, _ => []
              end
           ++ render below (depth + 1))%list
    end); [reflexivity|].
  induction IH as [|[key [samples below]] es Hbelow _ IHes]; constructor; [|exact IHes].
  intros acc. cbn [snd children] in Hbelow. rewrite Hbelow.
  unfold push, round, title_line, statistics_line.
  rewrite <- !repeat_string_indentation.
  destruct samples as [|x samples]; destruct below as [[|child below]];
    cbn [length entries Nat.ltb Nat.leb andb app render flat_map
         Measurement.mean Measurement.durations];
    rewrite <- ?app_assoc; cbn [app]; rewrite ?app_nil_r; reflexivity.
Qed.

Lemma render_empty_iff (level : BenchmarkData) (depth : nat) :
  render level depth = [] <-> entries level = [].
Proof.
  split; [|apply render_no_entries].
  destruct level as [[|[key [samples below]] es]]; simpl; [reflexivity | discriminate].
Qed.

(** C4: the report of a tree without entries is the empty string; any
    other report is the header, the lines of the traversal (title line of
    each node indented by two spaces per level, statistics line when the
    node has samples, a blank line exactly when it has samples and
    children, then the children, in the order in which the object lists
    them) and the footer, joined by line breaks.  Every object lists the
    keys that are array indices first, in ascending order, and then its
    other keys: this holds for a new Benchmark and is kept by every merge.
    A merge leaves the keys of a level as they are when the key is found
    there; a new key that is no array index comes last, and a new array
    index comes in between the keys that were there. *)
Theorem report_layout :
  (forall this : Benchmark, entries (data this) = [] -> snd (report this) = "")
  /\ (forall this : Benchmark,
        entries (data this) <> [] ->
        snd (report this) = text_of ([HEADER] ++ render (data this) 0 ++ [FOOTER])%list)
  /\ (forall level depth, reportLevel level depth = render level depth)
  /\ well_listed (data new_Benchmark)
  /\ (forall data path samples,
        well_listed data ->
        well_listed (fst (addBenchmarkDurations data path samples)))
  /\ (forall data key rest samples,
        let after := keys (fst (addBenchmarkDurations data (key :: rest) samples)) in
        if has_key key (entries data) then after = keys data
        else key_added key (keys data) after).
Proof.
  split; [|split; [|split; [|split; [|split]]]].
  - intros this Hempty. unfold report. rewrite reportLevel_render.
    rewrite render_no_entries by exact Hempty. reflexivity.
  - intros this Hentries. unfold report. rewrite !reportLevel_render.
    destruct (render (data this) 0) as [|line lines] eqn:Hrender.
    + apply render_empty_iff in Hrender. contradiction.
    + cbn [length Nat.eqb snd]. apply join_text_of.
  - apply reportLevel_render.
  - apply well_listed_empty.
  - apply well_listed_merge.
  - apply keys_merge.
Qed.

End ReportFacts.

(** * Further properties *)

(** ** More on the statistics *)

Section StatisticsMore.

Lemma fold_Rmin_in (xs : list R) (a : R) : In (fold_left Rmin xs a) (a :: xs).
Proof.
  revert a. induction xs as [|x xs IH]; intros a; simpl.
  - left. reflexivity.
  - destruct (IH (Rmin a x)) as [H|H].
    + unfold Rmin in H at 1. destruct (Rle_dec a x); [left | right; left]; exact H.
    + right. right. exact H.
Qed.

Lemma fold_Rmax_in (xs : list R) (a : R) : In (fold_left Rmax xs a) (a :: xs).
Proof.
  revert a. induction xs as [|x xs IH]; intros a; simpl.
  - left. reflexivity.
  - destruct (IH (Rmax a x)) as [H|H].
    + unfold Rmax in H at 1. destruct (Rle_dec a x); [right; left | left]; exact H.
    + right. right. exact H.
Qed.

Lemma min_in (xs : list R) : xs <> [] -> In (mathjs.min xs) xs.
Proof. destruct xs as [|x xs]; [congruence|]. intros _. apply fold_Rmin_in. Qed.

Lemma max_in (xs : list R) : xs <> [] -> In (mathjs.max xs) xs.
Proof. destruct xs as [|x xs]; [congruence|]. intros _. apply fold_Rmax_in. Qed.

(** X1: the minimum and the maximum of a Measurement are samples of it, and
    every sample lies between them. *)
Theorem extrema_are_samples (m : Measurement) :
  Measurement.durations m <> [] ->
  In (Measurement.min m) (Measurement.durations m)
  /\ In (Measurement.max m) (Measurement.durations m)
  /\ forall x, In x (Measurement.durations m) ->
               Measurement.min m <= x <= Measurement.max m.
Proof.
  intros Hne. split; [apply min_in, Hne|]. split; [apply max_in, Hne|].
  intros x Hx.
  pose proof (min_is_lower_bound (Measurement.durations m)) as Hlo.
  pose proof (max_is_upper_bound (Measurement.durations m)) as Hhi.
  rewrite Forall_forall in Hlo, Hhi. split; [apply Hlo, Hx | apply Hhi, Hx].
Qed.

End StatisticsMore.

(** ** More on threshold verification *)

Section VerificationMore.

Context {host : Host}.

Lemma check_ok_iff what value limit rest :
  check what value limit rest = Ok tt
  <-> ~ (exists t, limit = Some t /\ value > t) /\ rest = Ok tt.
Proof.
  unfold check. destruct limit as [t|].
  - destruct (Rgt_dec value t) as [Hgt|Hle].
    + split; [discriminate|]. intros [H _]. exfalso. apply H. eauto.
    + split.
      * intros ->. split; [|reflexivity]. intros (t' & Ht' & Hgt).
        injection Ht' as <-. contradiction.
      * intros [_ H]. exact H.
  - split.
    + intros ->. split; [|reflexivity]. intros (t' & Ht' & _). discriminate.
    + intros [_ H]. exact H.
Qed.

Lemma verify_ok_iff (m : Measurement) (options : MeasureOptions) :
  verifyMeasurement m options = Ok tt
  <-> verify options = false \/ forall s, ~ exceeds s m options.
Proof.
  unfold verifyMeasurement. destruct (verify options); cbn [negb].
  - rewrite !check_ok_iff. split.
    + intros (H1 & H2 & H3 & H4 & H5 & _). right. intros s. destruct s; assumption.
    + intros [H|H]; [discriminate|].
      pose proof (H Mean). pose proof (H Minimum). pose proof (H Maximum).
      pose proof (H MarginOfError). pose proof (H StandardDeviation). tauto.
  - split; [auto | reflexivity].
Qed.

Lemma check_raise what value limit rest e :
  check what value limit rest = Raise e ->
  (exists t, limit = Some t /\ value > t /\ e = exceeded what value t)
  \/ rest = Raise e.
Proof.
  unfold check. destruct limit as [t|]; [|auto].
  destruct (Rgt_dec value t) as [Hgt|]; [|auto].
  intros H. injection H as <-. left. eauto.
Qed.

(** X4: the check is sound.  When it passes with [verify] set, every
    statistic with a threshold is at most that threshold; when it fails,
    [verify] is set and the error is the PerformanceError of a statistic
    that is strictly above its threshold, never another kind of error. *)
Theorem verification_sound (m : Measurement) (options : MeasureOptions) :
  (verifyMeasurement m options = Ok tt ->
   verify options = true ->
   forall s t, threshold s options = Some t -> statistic_value s m <= t)
  /\ (forall e, verifyMeasurement m options = Raise e ->
        verify options = true
        /\ exists s t, threshold s options = Some t
                       /\ statistic_value s m > t
                       /\ e = exceeded (statistic_name s) (statistic_value s m) t).
Proof.
  split.
  - intros Hok Hverify s t Ht. apply verify_ok_iff in Hok.
    destruct Hok as [Hoff | Hnone]; [congruence|].
    apply Rnot_gt_le. intros Hgt. apply (Hnone s). exists t. auto.
  - intros e Hraise. unfold verifyMeasurement in Hraise.
    destruct (verify options); cbn [negb] in Hraise; [|discriminate].
    split; [reflexivity|].
    apply check_raise in Hraise.
    destruct Hraise as [(t & Ht & Hgt & ->) | Hraise]; [exists Mean, t; auto|].
    apply check_raise in Hraise.
    destruct Hraise as [(t & Ht & Hgt & ->) | Hraise]; [exists Minimum, t; auto|].
    apply check_raise in Hraise.
    destruct Hraise as [(t & Ht & Hgt & ->) | Hraise]; [exists Maximum, t; auto|].
    apply check_raise in Hraise.
    destruct Hraise as [(t & Ht & Hgt & ->) | Hraise]; [exists MarginOfError, t; auto|].
    apply check_raise in Hraise.
    destruct Hraise as [(t & Ht & Hgt & ->) | Hraise]; [exists StandardDeviation, t; auto|].
    discriminate.
Qed.

(** [loose] asks for no more than [strict]: it verifies only if [strict]
    does, and each of its thresholds is at least the one of [strict]. *)
Definition looser (strict loose : MeasureOptions) : Prop :=
  (verify loose = true -> verify strict = true)
  /\ forall s t', threshold s loose = Some t' ->
                  exists t, threshold s strict = Some t /\ t <= t'.

(** X5: relaxing the thresholds (raising or removing some, or switching
    verification off) never turns a Measurement that passes into one that
    fails. *)
Theorem verification_monotone (m : Measurement) (strict loose : MeasureOptions) :
  looser strict loose ->
  verifyMeasurement m strict = Ok tt ->
  verifyMeasurement m loose = Ok tt.
Proof.
  intros [Hverify Hthresholds] Hok. apply verify_ok_iff.
  destruct (verify loose) eqn:Hloose; [|left; reflexivity].
  right. intros s (t' & Ht' & Hgt).
  apply verify_ok_iff in Hok. destruct Hok as [Hoff | Hnone].
  - rewrite Hverify in Hoff by reflexivity. discriminate.
  - destruct (Hthresholds s t' Ht') as (t & Ht & Hle).
    apply (Hnone s). exists t. split; [exact Ht | lra].
Qed.

End VerificationMore.

(** ** More on measure *)

Section SamplesOfAnyWork.

Context {E : Type}.

Abbreviation St' := (E * list R)%type.

(** [adds_unless_fails n p]: if [p] completes, it has added exactly [n]
    samples; it may also fail. *)
Fixpoint adds_unless_fails {A : Type} (n : nat) (p : Async St' A) : Prop :=
  match p with
  | Return _ => n = O
  | Throw _ => True
  | Get k => forall st, adds_unless_fails n (k st)
  | Modify f k =>
      exists j, (forall st : St', length (snd (f st)) = (length (snd st) + j)%nat)
                /\ (j <= n)%nat /\ adds_unless_fails (n - j) k
  | Await k => adds_unless_fails n k
  end.

Lemma adds_unless_fails_bind {A B : Type} (p : Async St' A) (f : A -> Async St' B)
  (n m : nat) :
  adds_unless_fails n p -> (forall a, adds_unless_fails m (f a)) ->
  adds_unless_fails (n + m) (bind p f).
Proof.
  revert n. induction p as [a|e|k IH|g k IH|k IH]; intros n Hp Hf; simpl in *.
  - subst n. apply Hf.
  - exact I.
  - intros st. apply IH; auto.
  - destruct Hp as (j & Hlen & Hj & Hk). exists j. repeat split; auto; try lia.
    replace (n + m - j)%nat with (n - j + m)%nat by lia. apply IH; auto.
  - apply IH; auto.
Qed.

Lemma adds_unless_fails_lift {A : Type} (p : Async E A) :
  adds_unless_fails 0 (lift p : Async St' A).
Proof.
  induction p as [a|e|k IH|g k IH|k IH]; simpl; auto.
  exists O. split; [intros st; simpl; lia | split; [lia | exact IH]].
Qed.

Lemma adds_unless_fails_await {A : Type} (p : Async St' A) (n : nat) :
  adds_unless_fails n p -> adds_unless_fails n (await p).
Proof.
  intros H. unfold await. replace n with (n + 0)%nat by lia.
  apply adds_unless_fails_bind; [exact H | intros a; reflexivity].
Qed.

Lemma run_adds_unless_fails {A : Type} (p : Async St' A) (n : nat) (st st' : St') (a : A) :
  adds_unless_fails n p -> run p st = (st', Ok a) ->
  length (snd st') = (length (snd st) + n)%nat.
Proof.
  revert n st. induction p as [b|e|k IH|g k IH|k IH]; intros n st Hp Hrun; simpl in *.
  - injection Hrun as <- _. lia.
  - discriminate.
  - eapply IH; eauto.
  - destruct Hp as (j & Hlen & Hj & Hk).
    rewrite (IH _ _ Hk Hrun), Hlen. lia.
  - eapply IH; eauto.
Qed.

Lemma resume_adds_unless_fails {A : Type} (p : Async St' A) (n : nat) (st : St') :
  adds_unless_fails n p ->
  exists j, (j <= n)%nat
            /\ length (snd (fst (resume p st))) = (length (snd st) + j)%nat
            /\ adds_unless_fails (n - j) (snd (resume p st)).
Proof.
  revert n st. induction p as [a|e|k IH|g k IH|k IH]; intros n st Hp; simpl in *.
  - subst n. exists O. repeat split; simpl; auto.
  - exists O. repeat split; simpl; auto; lia.
  - apply IH, Hp.
  - destruct Hp as (j & Hlen & Hj & Hk).
    destruct (IH _ (g st) Hk) as (i & Hi & Hl & Hrest).
    exists (j + i)%nat. repeat split; try lia.
    + rewrite Hl, Hlen. lia.
    + replace (n - (j + i))%nat with (n - j - i)%nat by lia. exact Hrest.
  - exists O. repeat split; simpl; try lia.
    replace (n - 0)%nat with n by lia. exact Hp.
Qed.

Inductive pool_adds_unless_fails : nat -> list (Async St' unit) -> Prop :=
| pool_unless_nil : pool_adds_unless_fails O []
| pool_unless_cons k n p pool :
    adds_unless_fails k p -> pool_adds_unless_fails n pool ->
    pool_adds_unless_fails (k + n) (p :: pool).

Lemma pool_unless_repeat (p : Async St' unit) (count : nat) :
  adds_unless_fails 1 p -> pool_adds_unless_fails count (repeat p count).
Proof.
  intros Hp. induction count as [|count IH]; simpl.
  - constructor.
  - change (Datatypes.S count) with (1 + count)%nat. constructor; assumption.
Qed.

Lemma serially_adds_unless_fails (pool : list (Async St' unit)) (n : nat) :
  pool_adds_unless_fails n pool -> adds_unless_fails n (serially pool).
Proof.
  induction 1 as [|k n p pool Hp _ IH]; simpl.
  - reflexivity.
  - apply adds_unless_fails_bind; [apply adds_unless_fails_await, Hp | intros _; exact IH].
Qed.

Lemma start_all_unless_fails (pool : list (Async St' unit)) (n : nat) (st : St') :
  pool_adds_unless_fails n pool ->
  exists j, (j <= n)%nat
            /\ length (snd (fst (start_all pool st))) = (length (snd st) + j)%nat
            /\ pool_adds_unless_fails (n - j) (snd (start_all pool st)).
Proof.
  intros H. revert st. induction H as [|k n p pool Hp _ IH]; intros st; simpl.
  - exists O. repeat split; simpl; auto. constructor.
  - destruct (resume_adds_unless_fails p k st Hp) as (j & Hj & Hl & Hrest).
    destruct (resume p st) as [st1 p'] eqn:Hres. simpl in Hl, Hrest.
    destruct (IH st1) as (i & Hi & Hl' & Hpool).
    destruct (start_all pool st1) as [st2 pool'] eqn:Hstart. simpl in *.
    exists (j + i)%nat. repeat split; try lia.
    replace (k + n - (j + i))%nat with ((k - j) + (n - i))%nat by lia.
    constructor; assumption.
Qed.

Lemma resume_nth_unless_fails (pool : list (Async St' unit)) (n i : nat) (st : St') :
  pool_adds_unless_fails n pool ->
  exists j, (j <= n)%nat
            /\ length (snd (fst (resume_nth i pool st))) = (length (snd st) + j)%nat
            /\ pool_adds_unless_fails (n - j) (snd (resume_nth i pool st)).
Proof.
  intros H. revert i st. induction H as [|k n p pool Hp Hpool IH]; intros i st; simpl.
  - exists O. repeat split; simpl; auto. constructor.
  - destruct i as [|i].
    + destruct (resume_adds_unless_fails p k st Hp) as (j & Hj & Hl & Hrest).
      destruct (resume p st) as [st1 p'] eqn:Hres. simpl in *.
      exists j. repeat split; try lia.
      replace (k + n - j)%nat with ((k - j) + n)%nat by lia.
      constructor; assumption.
    + destruct (IH i st) as (j & Hj & Hl & Hrest).
      destruct (resume_nth i pool st) as [st1 pool'] eqn:Hres. simpl in *.
      exists j. repeat split; try lia.
      replace (k + n - j)%nat with (k + (n - j))%nat by lia.
      constructor; assumption.
Qed.

Lemma run_each_unless_fails (pool : list (Async St' unit)) (n : nat) (st st' : St') :
  pool_adds_unless_fails n pool -> run_each pool st = (st', Ok tt) ->
  length (snd st') = (length (snd st) + n)%nat.
Proof.
  intros H. revert st. induction H as [|k n p pool Hp _ IH]; intros st Hrun; simpl in *.
  - injection Hrun as <-. lia.
  - destruct (run p st) as [st1 [[]|e]] eqn:Hp1; [|discriminate].
    rewrite (IH st1 Hrun), (run_adds_unless_fails p k st st1 tt Hp Hp1). lia.
Qed.

Lemma settle_all_unless_fails (schedule : list nat) (pool : list (Async St' unit))
  (n : nat) (st st' : St') :
  pool_adds_unless_fails n pool -> settle_all schedule pool st = (st', Ok tt) ->
  length (snd st') = (length (snd st) + n)%nat.
Proof.
  revert pool n st. induction schedule as [|i schedule IH]; intros pool n st H Hsettle;
    simpl in Hsettle; destruct (first_rejection pool); try discriminate.
  - eapply run_each_unless_fails; eauto.
  - destruct (resume_nth_unless_fails pool n (i mod length pool) st H)
      as (j & Hj & Hl & Hrest).
    destruct (resume_nth (i mod length pool) pool st) as [st1 pool'] eqn:Hres.
    simpl in *. rewrite (IH pool' (n - j)%nat st1 Hrest Hsettle). lia.
Qed.

Lemma promise_all_unless_fails (schedule : list nat) (pool : list (Async St' unit))
  (n : nat) (st st' : St') :
  pool_adds_unless_fails n pool -> promise_all schedule pool st = (st', Ok tt) ->
  length (snd st') = (length (snd st) + n)%nat.
Proof.
  intros H Hall. unfold promise_all in Hall.
  destruct (start_all_unless_fails pool n st H) as (j & Hj & Hl & Hrest).
  destruct (start_all pool st) as [st1 pool'] eqn:Hstart. simpl in *.
  rewrite (settle_all_unless_fails schedule pool' (n - j)%nat st1 st' Hrest Hall). lia.
Qed.

End SamplesOfAnyWork.

Section MeasureMore.

Context {host : Host}.

Lemma iteration_adds_unless_fails (fn : Work) (options : MeasureOptions) :
  adds_unless_fails 1 (iteration fn options).
Proof.
  assert (Hhook : forall hook : option Work,
    adds_unless_fails 0 (match hook with
                         | Some h => await (lift (maybePromise h))
                         | None => Return tt
                         end : Async (Env * list R) unit)).
  { intros [h|]; [|reflexivity]. apply adds_unless_fails_await, adds_unless_fails_lift. }
  unfold iteration.
  change 1%nat with (0 + 1)%nat. apply adds_unless_fails_bind; [apply Hhook|].
  intros _ st. cbv zeta.
  change 1%nat with (0 + 1)%nat.
  apply adds_unless_fails_bind;
    [apply adds_unless_fails_await, adds_unless_fails_lift|].
  intros _ st'. destruct (hrtime_since (hrtime (fst st)) (fst st')) as [sec nano].
  exists 1%nat. split; [|split].
  - intros st''. simpl. apply length_push.
  - lia.
  - apply Hhook.
Qed.

(** X6: whatever the work and the hooks do, in both modes and for every
    order of resumption: a Measurement returned by measure has exactly as
    many samples as iterations were asked for, their number is positive,
    and the Measurement passes the threshold check of the options. *)
Theorem measure_returns_all_samples (fn : Work) (options : PartialMeasureOptions)
  (schedule : list nat) (env env' : Env) (measurement : Measurement) :
  measure fn options schedule env = (env', Ok measurement) ->
  let mergedOptions := spread defaultMeasureOptions options in
  Z.of_nat (length (Measurement.durations measurement)) = iterations mergedOptions
  /\ (0 < iterations mergedOptions)%Z
  /\ verifyMeasurement measurement mergedOptions = Ok tt.
Proof.
  intros Hmeasure mergedOptions. unfold measure in Hmeasure.
  fold mergedOptions in Hmeasure. cbv zeta in Hmeasure.
  set (calls := repeat (iteration fn mergedOptions)
                  (Z.to_nat (iterations mergedOptions))) in Hmeasure.
  assert (Hpool : pool_adds_unless_fails (Z.to_nat (iterations mergedOptions)) calls)
    by apply pool_unless_repeat, iteration_adds_unless_fails.
  assert (Hlen : forall st' : Env * list R,
    (if serial mergedOptions then run (serially calls) (env, [])
     else promise_all schedule calls (env, [])) = (st', Ok tt) ->
    length (snd st') = Z.to_nat (iterations mergedOptions)).
  { intros st' Hrun. destruct (serial mergedOptions).
    - apply (run_adds_unless_fails _ _ _ _ _ (serially_adds_unless_fails _ _ Hpool)) in Hrun.
      exact Hrun.
    - apply (promise_all_unless_fails _ _ _ _ _ Hpool) in Hrun. exact Hrun. }
  destruct (if serial mergedOptions then run (serially calls) (env, [])
            else promise_all schedule calls (env, [])) as [[env1 ds] [[]|e]];
    [|discriminate].
  specialize (Hlen (env1, ds) eq_refl). cbn [snd] in Hlen.
  unfold Measurement.new in Hmeasure.
  destruct (Nat.eqb_spec (length ds) 0) as [|Hpos]; [discriminate|].
  destruct (verifyMeasurement (Measurement.make ds) mergedOptions) as [[]|e] eqn:Hverify;
    [|discriminate].
  injection Hmeasure as _ <-. cbn [Measurement.durations].
  repeat split; [lia | lia | exact Hverify].
Qed.

(** X7: a number of iterations that is zero or negative runs nothing:
    measure fails with the error of the empty list of durations and leaves
    the host state as it was. *)
Theorem measure_without_iterations (fn : Work) (options : PartialMeasureOptions)
  (schedule : list nat) (env : Env) :
  (iterations (spread defaultMeasureOptions options) <= 0)%Z ->
  measure fn options schedule env
  = (env, Raise (Error "The list of durations must not be empty")).
Proof.
  intros Hle. unfold measure. cbv zeta.
  replace (Z.to_nat (iterations (spread defaultMeasureOptions options))) with O by lia.
  cbn [repeat]. rewrite promise_all_nil.
  destruct (serial (spread defaultMeasureOptions options)); reflexivity.
Qed.

End MeasureMore.

(** ** Serial mode is a plain loop *)

Section RunFacts.

Context {S : Type}.

Lemma run_bind {A B : Type} (p : Async S A) (f : A -> Async S B) (s : S) :
  run (bind p f) s
  = match run p s with
    | (s', Ok a) => run (f a) s'
    | (s', Raise e) => (s', Raise e)
    end.
Proof.
  revert s. induction p as [a|e|k IH|g k IH|k IH]; intros s; simpl; auto.
Qed.

Lemma run_await {A : Type} (p : Async S A) (s : S) : run (await p) s = run p s.
Proof.
  unfold await. rewrite run_bind. destruct (run p s) as [s' [a|e]]; reflexivity.
Qed.

Lemma run_lift {T A : Type} (p : Async S A) (s : S) (t : T) :
  run (lift p) (s, t) = ((fst (run p s), t), snd (run p s)).
Proof.
  revert s. induction p as [a|e|k IH|g k IH|k IH]; intros s; simpl; auto.
Qed.

End RunFacts.

Section SerialMode.

Context {host : Host}.

(** A hook run on its own; an absent hook does nothing. *)
Definition run_hook (hook : option Work) (env : Env) : Env * Result unit :=
  match hook with
  | Some h => run h env
  | None => (env, Ok tt)
  end.

(** The milliseconds between the reading [start] and the state [env]. *)
Definition elapsed (start : Instant) (env : Env) : R :=
  IZR (fst (hrtime_since start env)) * 1e3 + IZR (snd (hrtime_since start env)) / 1e6.

(** One iteration run on its own: beforeEach, then the work, timed from
    its start to its end, then afterEach.  A failure ends it there. *)
Definition timed_iteration (fn : Work) (options : MeasureOptions) (env : Env)
  : Env * Result R :=
  match run_hook (beforeEach options) env with
  | (env1, Raise e) => (env1, Raise e)
  | (env1, Ok _) =>
      match run fn env1 with
      | (env2, Raise e) => (env2, Raise e)
      | (env2, Ok _) =>
          match run_hook (afterEach options) env2 with
          | (env3, Raise e) => (env3, Raise e)
          | (env3, Ok _) => (env3, Ok (elapsed (hrtime env1) env2))
          end
      end
  end.

(** Iterations one after the other, up to the first failure. *)
Fixpoint timed_iterations (fn : Work) (options : MeasureOptions) (count : nat)
  (env : Env) : Env * Result (list R) :=
  match count with
  | O => (env, Ok [])
  | Datatypes.S count' =>
      match timed_iteration fn options env with
      | (env', Raise e) => (env', Raise e)
      | (env', Ok sample) =>
          match timed_iterations fn options count' env' with
          | (env'', Raise e) => (env'', Raise e)
          | (env'', Ok samples) => (env'', Ok (sample :: samples))
          end
      end
  end.

Lemma run_hook_call (hook : option Work) (env : Env) (acc : list R) :
  run (match hook with
       | Some h => await (lift (maybePromise h))
       | None => Return tt
       end) (env, acc)
  = ((fst (run_hook hook env), acc), snd (run_hook hook env)).
Proof.
  destruct hook as [h|]; simpl; [|reflexivity].
  rewrite run_await. apply run_lift.
Qed.

Lemma run_iteration (fn : Work) (options : MeasureOptions) (env : Env) (acc : list R) :
  match timed_iteration fn options env with
  | (env', Ok sample) =>
      run (iteration fn options) (env, acc) = ((env', push acc sample), Ok tt)
  | (env', Raise e) =>
      exists acc', run (iteration fn options) (env, acc) = ((env', acc'), Raise e)
  end.
Proof.
  unfold iteration, timed_iteration, elapsed.
  rewrite run_bind, run_hook_call.
  destruct (run_hook (beforeEach options) env) as [env1 [[]|e]]; cbn [fst snd];
    [|exists acc; reflexivity].
  cbn [run fst]. rewrite run_bind, run_await, run_lift.
  change (maybePromise fn) with fn.
  destruct (run fn env1) as [env2 [[]|e]]; cbn [fst snd];
    [|exists acc; reflexivity].
  cbn [run fst snd]. destruct (hrtime_since (hrtime env1) env2) as [sec nano].
  cbn [run fst snd]. rewrite run_hook_call.
  destruct (run_hook (afterEach options) env2) as [env3 [[]|e]]; cbn [fst snd];
    [reflexivity | eexists; reflexivity].
Qed.

Lemma run_serially_loop (fn : Work) (options : MeasureOptions) (count : nat)
  (env : Env) (acc : list R) :
  match timed_iterations fn options count env with
  | (env', Ok samples) =>
      run (serially (repeat (iteration fn options) count)) (env, acc)
      = ((env', acc ++ samples)%list, Ok tt)
  | (env', Raise e) =>
      exists acc', run (serially (repeat (iteration fn options) count)) (env, acc)
                   = ((env', acc'), Raise e)
  end.
Proof.
  revert env acc. induction count as [|count IH]; intros env acc;
    cbn [timed_iterations repeat serially].
  - simpl. rewrite app_nil_r. reflexivity.
  - rewrite run_bind, run_await.
    pose proof (run_iteration fn options env acc) as Hit.
    destruct (timed_iteration fn options env) as [env1 [sample|e]].
    + rewrite Hit. specialize (IH env1 (push acc sample)).
      destruct (timed_iterations fn options count env1) as [env2 [samples|e]].
      * rewrite IH. unfold push. rewrite <- app_assoc. reflexivity.
      * exact IH.
    + destruct Hit as [acc' ->]. exists acc'. reflexivity.
Qed.

(** X8: in serial mode measure is the plain loop: each iteration runs
    beforeEach, the work and afterEach to their end before the next one
    starts, the sample is the time from the start of the work to its end
    (the hooks are not timed), the samples are in the order of the
    iterations, and the first failure ends the loop with the host in the
    state where it happened. *)
Theorem measure_serial_loop (fn : Work) (options : PartialMeasureOptions)
  (schedule : list nat) (env : Env) :
  let mergedOptions := spread defaultMeasureOptions options in
  serial mergedOptions = true ->
  measure fn options schedule env
  = match timed_iterations fn mergedOptions (Z.to_nat (iterations mergedOptions)) env with
    | (env', Raise e) => (env', Raise e)
    | (env', Ok samples) =>
        match Measurement.new samples with
        | Raise e => (env', Raise e)
        | Ok measurement =>
            match verifyMeasurement measurement mergedOptions with
            | Raise e => (env', Raise e)
            | Ok _ => (env', Ok measurement)
            end
        end
    end.
Proof.
  intros mergedOptions Hserial. unfold measure. fold mergedOptions. cbv zeta.
  rewrite Hserial.
  pose proof (run_serially_loop fn mergedOptions
                (Z.to_nat (iterations mergedOptions)) env []) as Hloop.
  destruct (timed_iterations fn mergedOptions (Z.to_nat (iterations mergedOptions)) env)
    as [env' [samples|e]].
  - rewrite Hloop. reflexivity.
  - destruct Hloop as [acc' ->]. reflexivity.
Qed.

(** X9: fail fast.  In serial mode with at least one iteration, when the
    work fails in its first run, measure fails with that error and the
    host is left as the work left it: afterEach is not run and the work is
    not run again. *)
Theorem measure_serial_fails_fast (fn : Work) (options : PartialMeasureOptions)
  (schedule : list nat) (env env1 env2 : Env) (e : Exn) :
  let mergedOptions := spread defaultMeasureOptions options in
  serial mergedOptions = true ->
  (0 < iterations mergedOptions)%Z ->
  run_hook (beforeEach mergedOptions) env = (env1, Ok tt) ->
  run fn env1 = (env2, Raise e) ->
  measure fn options schedule env = (env2, Raise e).
Proof.
  intros mergedOptions Hserial Hpos Hbefore Hwork.
  unfold measure. fold mergedOptions. cbv zeta. rewrite Hserial.
  destruct (Z.to_nat (iterations mergedOptions)) as [|count] eqn:Hcount; [lia|].
  pose proof (run_serially_loop fn mergedOptions (Datatypes.S count) env []) as Hloop.
  cbn [timed_iterations] in Hloop. unfold timed_iteration in Hloop.
  rewrite Hbefore, Hwork in Hloop. destruct Hloop as [acc' ->]. reflexivity.
Qed.

End SerialMode.

(** ** Work that fails before its first suspension point *)

Section ResumeFacts.

Context {S : Type}.

Lemma resume_throw_bind {A B : Type} (p : Async S A) (f : A -> Async S B) (s : S) (e : Exn) :
  snd (resume p s) = Throw e ->
  resume (bind p f) s = (fst (resume p s), Throw e).
Proof.
  revert s. induction p as [a|x|k IH|g k IH|k IH]; intros s H; simpl in *.
  - discriminate.
  - injection H as ->. reflexivity.
  - apply IH, H.
  - apply IH, H.
  - subst k. reflexivity.
Qed.

Lemma resume_throw_run {A : Type} (p : Async S A) (s : S) (e : Exn) :
  snd (resume p s) = Throw e -> run p s = (fst (resume p s), Raise e).
Proof.
  revert s. induction p as [a|x|k IH|g k IH|k IH]; intros s H; simpl in *.
  - discriminate.
  - injection H as ->. reflexivity.
  - apply IH, H.
  - apply IH, H.
  - subst k. reflexivity.
Qed.

Lemma resume_lift {T A : Type} (p : Async S A) (s : S) (t : T) :
  resume (lift p) (s, t) = ((fst (resume p s), t), lift (snd (resume p s))).
Proof.
  revert s. induction p as [a|x|k IH|g k IH|k IH]; intros s; simpl; auto.
Qed.

Lemma first_rejection_repeat (e : Exn) (count : nat) :
  first_rejection (repeat (Throw e : Async S unit) (Datatypes.S count)) = Some e.
Proof. reflexivity. Qed.

Lemma resume_nth_repeat_throw (e : Exn) (count i : nat) (s : S) :
  resume_nth i (repeat (Throw e : Async S unit) count) s = (s, repeat (Throw e) count).
Proof.
  revert i. induction count as [|count IH]; intros i; [destruct i; reflexivity|].
  cbn [repeat resume_nth]. destruct i as [|i]; [reflexivity|].
  rewrite IH. reflexivity.
Qed.

(** Computations that have failed are not run any further. *)
Lemma keep_running_repeat_throw (e : Exn) (count : nat) (schedule : list nat) (s : S) :
  keep_running schedule (repeat (Throw e : Async S unit) count) s = s.
Proof.
  induction schedule as [|i schedule IH]; [reflexivity|].
  cbn [keep_running]. rewrite resume_nth_repeat_throw. exact IH.
Qed.

End ResumeFacts.

Section FailingWork.

Context {host : Host}.

Lemma resume_iteration_throw (fn : Work) (options : MeasureOptions) (e : Exn)
  (env : Env) (acc : list R) :
  beforeEach options = None ->
  snd (resume fn env) = Throw e ->
  resume (iteration fn options) (env, acc) = ((fst (resume fn env), acc), Throw e).
Proof.
  intros Hbefore Hthrow. unfold iteration. rewrite Hbefore.
  cbn [bind resume fst]. unfold await, maybePromise.
  assert (Hlift : resume (lift fn) (env, acc)
                  = ((fst (resume fn env), acc), Throw e : Async (Env * list R) unit)).
  { rewrite resume_lift, Hthrow. reflexivity. }
  rewrite resume_throw_bind with (e := e).
  - rewrite resume_throw_bind with (e := e); rewrite Hlift; reflexivity.
  - rewrite resume_throw_bind with (e := e); rewrite Hlift; reflexivity.
Qed.

Lemma start_all_throw (fn : Work) (options : MeasureOptions) (e : Exn)
  (count : nat) (env : Env) (acc : list R) :
  beforeEach options = None ->
  (forall env', snd (resume fn env') = Throw e) ->
  start_all (repeat (iteration fn options) count) (env, acc)
  = ((Nat.iter count (fun env' => fst (resume fn env')) env, acc),
     repeat (Throw e) count).
Proof.
  intros Hbefore Hthrow. revert env. induction count as [|count IH]; intros env.
  - reflexivity.
  - cbn [repeat start_all].
    rewrite (resume_iteration_throw fn options e env acc Hbefore (Hthrow env)).
    rewrite IH. cbn [repeat]. f_equal. f_equal.
    clear IH. induction count as [|count IH]; [reflexivity|].
    cbn [Nat.iter nat_rect] in *. rewrite <- IH. reflexivity.
Qed.

(** X10: work that always fails with [e] before its first suspension
    point, no beforeEach, at least one iteration: measure fails with [e] in
    both modes.  In serial mode the work has been started once; in
    overlapped mode every iteration has been started before the failure is
    reported. *)
Theorem measure_failing_work (fn : Work) (options : PartialMeasureOptions)
  (schedule : list nat) (env : Env) (e : Exn) :
  let mergedOptions := spread defaultMeasureOptions options in
  let start := fun env' : Env => fst (resume fn env') in
  (forall env', snd (resume fn env') = Throw e) ->
  beforeEach mergedOptions = None ->
  (0 < iterations mergedOptions)%Z ->
  measure fn options schedule env
  = (if serial mergedOptions then start env
     else Nat.iter (Z.to_nat (iterations mergedOptions)) start env,
     Raise e).
Proof.
  intros mergedOptions start Hthrow Hbefore Hpos.
  unfold measure. fold mergedOptions. cbv zeta.
  destruct (Z.to_nat (iterations mergedOptions)) as [|count] eqn:Hcount; [lia|].
  destruct (serial mergedOptions).
  - pose proof (run_serially_loop fn mergedOptions (Datatypes.S count) env []) as Hloop.
    cbn [timed_iterations] in Hloop. unfold timed_iteration in Hloop.
    rewrite Hbefore in Hloop. cbn [run_hook] in Hloop.
    rewrite (resume_throw_run fn env e (Hthrow env)) in Hloop.
    destruct Hloop as [acc' ->]. reflexivity.
  - unfold promise_all.
    rewrite (start_all_throw fn mergedOptions e (Datatypes.S count) env [] Hbefore Hthrow).
    destruct schedule; cbn [settle_all]; rewrite first_rejection_repeat;
      rewrite keep_running_repeat_throw; reflexivity.
Qed.

End FailingWork.

(** ** More on Benchmark.record *)

Section RecordMore.

Context {host : Host}.

Lemma or_else_opt_none {A : Type} (o : option A) : or_else_opt o None = o.
Proof. destruct o; reflexivity. Qed.

(** A complete options object spread over the defaults is itself. *)
Lemma spread_as_partial (options : MeasureOptions) :
  spread defaultMeasureOptions (as_partial options) = options.
Proof.
  destruct options. unfold spread, as_partial. simpl.
  rewrite !or_else_opt_none. reflexivity.
Qed.

Definition verdict (measurement : Measurement) (options : MeasureOptions)
  : Result Measurement :=
  match verifyMeasurement measurement options with
  | Ok _ => Ok measurement
  | Raise e => Raise e
  end.

Lemma measure_verify_split (fn : Work) (options : MeasureOptions)
  (schedule : list nat) (env : Env) :
  measure fn (as_partial (with_verify options true)) schedule env
  = match measure fn (as_partial (with_verify options false)) schedule env with
    | (env', Ok measurement) => (env', verdict measurement (with_verify options true))
    | (env', Raise e) => (env', Raise e)
    end.
Proof.
  unfold measure. cbv zeta. rewrite !spread_as_partial.
  change (iteration fn (with_verify options true))
    with (iteration fn (with_verify options false)).
  change (iterations (with_verify options true))
    with (iterations (with_verify options false)).
  change (serial (with_verify options true)) with (serial (with_verify options false)).
  destruct (if serial (with_verify options false) then _ else _)
    as [[env' ds] [[]|e]]; [|reflexivity].
  destruct (Measurement.new ds) as [measurement|e]; [|reflexivity].
  rewrite (verify_off measurement (with_verify options false)) by reflexivity.
  unfold verdict.
  destruct (verifyMeasurement measurement (with_verify options true)); reflexivity.
Qed.

(** Every call of record, by cases. *)
Lemma record_cases (arguments : RecordArguments) (schedule : list nat)
  (this : Benchmark) (env : Env) :
  (~ well_described arguments
   /\ record arguments schedule this env
      = ((this, env), Raise (Error "The description must not be empty")))
  \/ (well_described arguments
      /\ exists env' e,
           measure (work_of arguments)
             (as_partial (with_verify (options_of arguments) false)) schedule env
           = (env', Raise e)
           /\ record arguments schedule this env = ((this, env'), Raise e))
  \/ (well_described arguments
      /\ exists env' measurement,
           measure (work_of arguments)
             (as_partial (with_verify (options_of arguments) false)) schedule env
           = (env', Ok measurement)
           /\ record arguments schedule this env
              = match snd (merged arguments measurement this) with
                | Raise e => ((fst (merged arguments measurement this), env'), Raise e)
                | Ok _ =>
                    ((emit (path_of arguments) measurement
                        (fst (merged arguments measurement this)), env'),
                     verdict measurement (with_verify (options_of arguments) true))
                end).
Proof.
  assert (Hdec : well_described arguments \/ ~ well_described arguments).
  { destruct arguments as [fn o | d fn o]; simpl; [auto|].
    destruct (description_length d); [right; auto | left; discriminate]. }
  destruct Hdec as [Hwell | Hbad].
  - destruct (measure (work_of arguments)
                (as_partial (with_verify (options_of arguments) false)) schedule env)
      as [env' [measurement|e]] eqn:Hmeasure.
    + right. right. split; [exact Hwell|]. exists env', measurement.
      split; [reflexivity|].
      apply (record_after_measure arguments schedule this env env' measurement Hwell Hmeasure).
    + right. left. split; [exact Hwell|]. exists env', e. split; [reflexivity|].
      unfold record. destruct arguments as [fn o | d fn o]; simpl in *.
      * rewrite Hmeasure. reflexivity.
      * destruct (Nat.eqb_spec (description_length d) 0); [contradiction|].
        rewrite Hmeasure. reflexivity.
  - left. split; [exact Hbad|].
    destruct arguments as [fn o | d fn o]; simpl in *; [tauto|].
    unfold record.
    destruct (Nat.eqb_spec (description_length d) 0) as [|Hne]; [reflexivity | tauto].
Qed.

(** X11: with a usable description of ordinary names, or none, record ends
    as measure does when called with the same options and [verify] on: the
    same host state and the same Measurement or error. *)
Theorem record_agrees_with_measure (arguments : RecordArguments) (schedule : list nat)
  (this : Benchmark) (env : Env) :
  well_described arguments ->
  ordinary (path_of arguments) ->
  (snd (fst (record arguments schedule this env)), snd (record arguments schedule this env))
  = measure (work_of arguments)
      (as_partial (with_verify (options_of arguments) true)) schedule env.
Proof.
  intros Hwell Hordinary. rewrite measure_verify_split.
  destruct (record_cases arguments schedule this env)
    as [[Hbad _] | [(_ & env' & e & Hmeasure & ->) | (_ & env' & m & Hmeasure & ->)]].
  - contradiction.
  - rewrite Hmeasure. reflexivity.
  - rewrite Hmeasure, merged_ordinary by exact Hordinary. reflexivity.
Qed.

(** The caller's options with the key [verify] set. *)
Definition set_verify' (options : PartialMeasureOptions) (v : bool)
  : PartialMeasureOptions :=
  {| iterations' := iterations' options;
     serial' := serial' options;
     meanUnder' := meanUnder' options;
     minUnder' := minUnder' options;
     maxUnder' := maxUnder' options;
     marginOfErrorUnder' := marginOfErrorUnder' options;
     standardDeviationUnder' := standardDeviationUnder' options;
     beforeEach' := beforeEach' options;
     afterEach' := afterEach' options;
     verify' := Some v |}.

(** X12: record pays no attention to a [verify] key among its options:
    with the key set to either value it does what it does without it. *)
Theorem record_ignores_verify (options : PartialMeasureOptions) (v : bool)
  (fn : Work) (description : Description) (schedule : list nat)
  (this : Benchmark) (env : Env) :
  record (Bare fn (Some (set_verify' options v))) schedule this env
  = record (Bare fn (Some options)) schedule this env
  /\ record (Described description fn (Some (set_verify' options v))) schedule this env
     = record (Described description fn (Some options)) schedule this env.
Proof. split; reflexivity. Qed.

(** X13: a call of record that gets no Measurement leaves the tree and
    the events as they were.  A description that is given and empty, as a
    string or as an array, fails with "The description must not be empty"
    before anything runs; a failure of the iterations is passed on as it
    is. *)
Theorem record_failure_keeps_benchmark (arguments : RecordArguments)
  (schedule : list nat) (this : Benchmark) (env : Env) :
  (~ well_described arguments ->
   record arguments schedule this env
   = ((this, env), Raise (Error "The description must not be empty")))
  /\ (well_described arguments ->
      forall env' e,
        measure (work_of arguments)
          (as_partial (with_verify (options_of arguments) false)) schedule env
        = (env', Raise e) ->
        record arguments schedule this env = ((this, env'), Raise e)).
Proof.
  split.
  - intros Hbad.
    destruct (record_cases arguments schedule this env)
      as [[_ H] | [(Hwell & _) | (Hwell & _)]]; [exact H | contradiction | contradiction].
  - intros Hwell env' e Hmeasure.
    destruct (record_cases arguments schedule this env)
      as [[Hbad _] | [(_ & env1 & e1 & H1 & ->) | (_ & env1 & m & H1 & _)]].
    + contradiction.
    + rewrite Hmeasure in H1. injection H1 as <- <-. reflexivity.
    + rewrite Hmeasure in H1. discriminate.
Qed.

(** X14: no call of record loses anything: afterwards every path holds
    the samples it held before, possibly followed by new ones, and the
    events are the earlier ones followed by at most one. *)
Theorem record_only_adds (arguments : RecordArguments) (schedule : list nat)
  (this : Benchmark) (env : Env) :
  let this' := fst (fst (record arguments schedule this env)) in
  (forall q, exists more,
      samples_at (data this') q = (samples_at (data this) q ++ more)%list)
  /\ exists more, events this' = (events this ++ more)%list /\ (length more <= 1)%nat.
Proof.
  intros this'. subst this'.
  assert (Hsame : (forall q, exists more,
                      samples_at (data this) q = (samples_at (data this) q ++ more)%list)
                  /\ exists more, events this = (events this ++ more)%list
                                  /\ (length more <= 1)%nat).
  { split; [intros q|]; exists []; rewrite app_nil_r; simpl; auto. }
  destruct (record_cases arguments schedule this env)
    as [[_ ->] | [(_ & env' & e & _ & ->) | (_ & env' & m & _ & ->)]];
    cbn [fst]; try exact Hsame.
  assert (Hdata : forall q, exists more,
             samples_at (data (fst (merged arguments m this))) q
             = (samples_at (data this) q ++ more)%list).
  { intros q. rewrite merged_data.
    destruct (path_of arguments) as [|key path] eqn:Hpath.
    - exists []. rewrite app_nil_r. reflexivity.
    - rewrite samples_at_merge by discriminate.
      destruct (list_eq_dec string_dec q (key :: path)) as [->|_].
      + destruct (snd (addBenchmarkDurations _ _ _)).
        * exists (Measurement.durations m). reflexivity.
        * exists []. rewrite app_nil_r. reflexivity.
      + exists []. rewrite app_nil_r. reflexivity. }
  destruct (snd (merged arguments m this)); cbn [fst]; split.
  - exact Hdata.
  - unfold emit, push. cbn [events]. rewrite merged_events.
    eexists; split; [reflexivity | simpl; lia].
  - exact Hdata.
  - rewrite merged_events. exists []. rewrite app_nil_r. simpl. auto.
Qed.

(** X15: a Measurement returned by record meets every threshold among
    the caller's options, whatever the caller's [verify]; it is the
    measurement of the one event the call has added. *)
Theorem record_result_meets_thresholds (arguments : RecordArguments)
  (schedule : list nat) (this this' : Benchmark) (env env' : Env)
  (measurement : Measurement) :
  record arguments schedule this env = ((this', env'), Ok measurement) ->
  (forall s t, threshold s (options_of arguments) = Some t ->
               statistic_value s measurement <= t)
  /\ exists event, events this' = (events this ++ [event])%list
                   /\ event_measurement event = measurement
                   /\ event_description event = path_of arguments.
Proof.
  intros Hrecord.
  destruct (record_cases arguments schedule this env)
    as [[_ H] | [(_ & env1 & e & _ & H) | (_ & env1 & m & _ & H)]];
    rewrite H in Hrecord; try discriminate.
  destruct (snd (merged arguments m this)); [|discriminate].
  unfold verdict in Hrecord.
  destruct (verifyMeasurement m (with_verify (options_of arguments) true))
    as [[]|e] eqn:Hverify; [|discriminate].
  injection Hrecord as <- _ <-. split.
  - intros s t Ht. apply verify_ok_iff in Hverify.
    destruct Hverify as [Hoff | Hnone]; [discriminate|].
    apply Rnot_gt_le. intros Hgt. apply (Hnone s). exists t.
    split; [destruct s; exact Ht | exact Hgt].
  - unfold emit, push. cbn [events]. rewrite merged_events.
    eexists; (split; [reflexivity|]); split; reflexivity.
Qed.

End RecordMore.

(** ** More on the tree *)

Section TreeMore.

(** An object has each key once, and so has every object below it. *)
Inductive unique_keys : BenchmarkData -> Prop :=
| unique_keys_object es :
    NoDup (map fst es) ->
    Forall (fun entry : string * Info => unique_keys (children (snd entry))) es ->
    unique_keys (Object es).

Lemma unique_keys_empty : unique_keys (Object []).
Proof. constructor; constructor. Qed.

Lemma unique_keys_merge data path samples :
  unique_keys data -> unique_keys (fst (addBenchmarkDurations data path samples)).
Proof.
  revert data. induction path as [|category rest IH]; intros data Hdata; [exact Hdata|].
  rewrite addBenchmarkDurations_cons. cbv zeta.
  destruct (blocked category (entries data)); [exact Hdata|].
  destruct Hdata as [es Hkeys Hbelow]. cbn [entries].
  pose proof (Forall_ensured unique_keys category es unique_keys_empty Hbelow)
    as Hensured.
  destruct rest as [|next rest]; cbn [fst]; constructor;
    try (apply NoDup_keys_set, Hkeys);
    (apply Forall_set; [|exact Hbelow]); intros k; cbn [snd children];
    [exact Hensured | apply IH, Hensured].
Qed.

Lemma blocked_set_same key info es : blocked key (set key info es) = false.
Proof. unfold blocked. rewrite own_key_set_same. apply andb_false_r. Qed.

Lemma merge_twice data path first second :
  addBenchmarkDurations (fst (addBenchmarkDurations data path first)) path second
  = addBenchmarkDurations data path (first ++ second)%list.
Proof.
  revert data. induction path as [|category rest IH]; intros data; [reflexivity|].
  rewrite (addBenchmarkDurations_cons data category rest first),
    (addBenchmarkDurations_cons data category rest (first ++ second)%list).
  cbv zeta. destruct (blocked category (entries data)) eqn:Hblocked.
  - cbn [fst]. rewrite addBenchmarkDurations_cons, Hblocked. reflexivity.
  - destruct rest as [|next rest]; cbn [fst];
      rewrite addBenchmarkDurations_cons; cbv zeta; cbn [entries];
      rewrite blocked_set_same, ensured_set_same, set_set; cbn [durations children].
    + rewrite app_assoc. reflexivity.
    + rewrite IH. reflexivity.
Qed.

(** A merge that throws does so whatever the samples, and leaves the same
    tree. *)
Lemma merge_fails_alike data path first second e :
  snd (addBenchmarkDurations data path first) = Raise e ->
  addBenchmarkDurations data path second = addBenchmarkDurations data path first.
Proof.
  revert data. induction path as [|category rest IH]; intros data; [discriminate|].
  rewrite !addBenchmarkDurations_cons. cbv zeta.
  destruct (blocked category (entries data)); [reflexivity|].
  destruct rest as [|next rest]; [discriminate|]. cbn [snd].
  intros H. rewrite (IH _ H). reflexivity.
Qed.

(** X17: merging is cumulative.  Two merges under the same path give the
    tree that one merge of the two sample lists, one after the other,
    gives; so do two calls of incorporate. *)
Theorem merge_accumulates :
  (forall data path first second,
      addBenchmarkDurations (fst (addBenchmarkDurations data path first)) path second
      = addBenchmarkDurations data path (first ++ second)%list)
  /\ (forall this description first second,
         then_incorporate (incorporate description first this) description second
         = incorporate description
             (Measurement.make (Measurement.durations first
                                  ++ Measurement.durations second)%list) this).
Proof.
  split; [apply merge_twice|].
  intros this description first second.
  destruct description as [|key path]; [reflexivity|].
  rewrite !incorporate_merge by discriminate. unfold then_incorporate.
  cbn [Measurement.durations].
  destruct (snd (addBenchmarkDurations (data this) (key :: path)
                   (Measurement.durations first))) as [[]|e] eqn:Hfirst.
  - rewrite incorporate_merge by discriminate. cbn [data events].
    rewrite merge_twice. reflexivity.
  - rewrite (merge_fails_alike _ _ _ (Measurement.durations first
                                       ++ Measurement.durations second)%list e Hfirst).
    rewrite Hfirst. reflexivity.
Qed.

(** X18: merges under two different non-empty paths can be done in either
    order: the same nodes are present afterwards and every path holds the
    same samples. *)
Theorem merges_commute (data : BenchmarkData) (p1 p2 : list string)
  (s1 s2 : list R) (q : list string) :
  p1 <> [] -> p2 <> [] -> p1 <> p2 ->
  let one_two :=
    fst (addBenchmarkDurations (fst (addBenchmarkDurations data p1 s1)) p2 s2) in
  let two_one :=
    fst (addBenchmarkDurations (fst (addBenchmarkDurations data p2 s2)) p1 s1) in
  samples_at one_two q = samples_at two_one q
  /\ (find_node one_two q <> None <-> find_node two_one q <> None).
Proof.
  intros H1 H2 Hne one_two two_one. subst one_two two_one. split.
  - rewrite !samples_at_merge, !outcome_after_merge by assumption.
    destruct (snd (addBenchmarkDurations data p1 s1)),
      (snd (addBenchmarkDurations data p2 s2));
      repeat match goal with
             | |- context [list_eq_dec string_dec ?a ?b] =>
                 destruct (list_eq_dec string_dec a b)
             end; try congruence; reflexivity.
  - rewrite !find_node_merge, !reached_after_merge. tauto.
Qed.

End TreeMore.

Section TreeInvariant.

Context {host : Host}.

(** X16: every object of the tree has each key once.  This holds for a
    new Benchmark and is kept by every merge, by incorporate and by every
    call of record. *)
Theorem unique_keys_kept :
  unique_keys (data new_Benchmark)
  /\ (forall data path samples,
         unique_keys data ->
         unique_keys (fst (addBenchmarkDurations data path samples)))
  /\ (forall description measurement this this' outcome,
         unique_keys (data this) ->
         incorporate description measurement this = (this', outcome) ->
         unique_keys (data this'))
  /\ (forall arguments schedule this env,
         unique_keys (data this) ->
         unique_keys (data (fst (fst (record arguments schedule this env))))).
Proof.
  split; [constructor; constructor|]. split; [apply unique_keys_merge|]. split.
  - intros description measurement this this' outcome Hthis Hinc.
    destruct description as [|key path].
    + injection Hinc as <- _. exact Hthis.
    + replace this' with (fst (incorporate (key :: path) measurement this))
        by (rewrite Hinc; reflexivity).
      rewrite incorporate_merge by discriminate. cbn [fst data].
      apply unique_keys_merge, Hthis.
  - intros arguments schedule this env Hthis.
    assert (Hmerged : forall m, unique_keys (data (fst (merged arguments m this)))).
    { intros m. rewrite merged_data.
      destruct (path_of arguments); [exact Hthis | apply unique_keys_merge, Hthis]. }
    destruct (record_cases arguments schedule this env)
      as [[_ ->] | [(_ & env' & e & _ & ->) | (_ & env' & m & _ & ->)]];
      cbn [fst]; try exact Hthis.
    destruct (snd (merged arguments m this)); cbn [fst]; [|apply Hmerged].
    unfold emit. cbn [data]. apply Hmerged.
Qed.

End TreeInvariant.

(** ** More on the report *)

Section ReportMore.

Context {host : Host}.

Lemma append_not_empty (s t : string) : t <> "" -> s ++ t <> "".
Proof. intros Ht. destruct s; simpl; [exact Ht | discriminate]. Qed.

Lemma title_line_not_empty depth key : title_line depth key <> "".
Proof.
  unfold title_line. apply append_not_empty, append_not_empty. discriminate.
Qed.

Lemma statistics_line_not_empty depth samples : statistics_line depth samples <> "".
Proof.
  unfold statistics_line. repeat apply append_not_empty. discriminate.
Qed.

(** A line one level deeper; a blank line stays blank. *)
Definition indent_line (line : string) : string :=
  if string_dec line "" then "" else "  " ++ line.

Lemma indent_title depth key :
  indent_line (title_line depth key) = title_line (Datatypes.S depth) key.
Proof.
  unfold indent_line.
  destruct (string_dec (title_line depth key) "") as [H|_];
    [destruct (title_line_not_empty _ _ H) | reflexivity].
Qed.

Lemma indent_statistics depth samples :
  indent_line (statistics_line depth samples)
  = statistics_line (Datatypes.S depth) samples.
Proof.
  unfold indent_line.
  destruct (string_dec (statistics_line depth samples) "") as [H|_];
    [destruct (statistics_line_not_empty _ _ H) | reflexivity].
Qed.

Lemma map_flat_map {A B C : Type} (f : B -> C) (g : A -> list B) (xs : list A) :
  map f (flat_map g xs) = flat_map (fun x => map f (g x)) xs.
Proof.
  induction xs as [|x xs IH]; simpl; [reflexivity|].
  rewrite map_app, IH. reflexivity.
Qed.

Lemma flat_map_ext_Forall {A B : Type} (f g : A -> list B) (xs : list A) :
  Forall (fun x => f x = g x) xs -> flat_map f xs = flat_map g xs.
Proof.
  induction 1 as [|x xs Hx _ IH]; simpl; [reflexivity|].
  rewrite Hx, IH. reflexivity.
Qed.

Lemma render_deeper (level : BenchmarkData) (depth : nat) :
  render level (Datatypes.S depth) = map indent_line (render level depth).
Proof.
  revert depth. induction level as [es IH] using BenchmarkData_induction.
  intros depth. cbn [render]. rewrite map_flat_map.
  apply flat_map_ext_Forall.
  induction IH as [|[key [samples below]] es Hbelow _ IHes]; constructor; [|exact IHes].
  cbn [snd children] in Hbelow.
  change (Datatypes.S depth + 1)%nat with (Datatypes.S (depth + 1)).
  rewrite Hbelow, !map_app. cbn [map]. rewrite indent_title.
  destruct samples as [|x samples]; destruct below as [[|child below]];
    cbn [map entries]; rewrite ?indent_statistics; reflexivity.
Qed.

(** X19: nesting only indents.  The lines of a tree rendered one level
    deeper are the lines of the same tree with two more spaces in front,
    blank separator lines excepted. *)
Theorem reportLevel_deeper (level : BenchmarkData) (depth : nat) :
  reportLevel level (depth + 1) = map indent_line (reportLevel level depth).
Proof.
  rewrite !reportLevel_render. replace (depth + 1)%nat with (Datatypes.S depth) by lia.
  apply render_deeper.
Qed.

(** The lines of a single recording under a path: one title per segment,
    each one level deeper, and the statistics below the last. *)
Fixpoint chain_lines (depth : nat) (path : list string) (samples : list R)
  : list string :=
  match path with
  | [] => []
  | key :: rest =>
      title_line depth key
        :: match rest with
           | [] => [statistics_line depth samples]
           | _ :: _ => chain_lines (depth + 1) rest samples
           end
  end.

Lemma set_empty key info : set key info [] = [(key, info)].
Proof. unfold set. cbn [own_key]. destruct (array_index key); reflexivity. Qed.

Lemma render_chain (path : list string) (samples : list R) (depth : nat) :
  samples <> [] ->
  snd (addBenchmarkDurations (Object []) path samples) = Ok tt ->
  render (fst (addBenchmarkDurations (Object []) path samples)) depth
  = chain_lines depth path samples.
Proof.
  intros Hsamples. revert depth.
  induction path as [|key rest IH]; intros depth; [reflexivity|].
  rewrite addBenchmarkDurations_cons. cbv zeta.
  destruct (blocked key (entries (Object []))); [discriminate|].
  unfold ensured. cbn [entries get durations children]. rewrite !set_empty.
  destruct rest as [|next rest]; cbn [fst snd]; intros Hok.
  - destruct samples as [|x samples]; [congruence|]. reflexivity.
  - cbn [render flat_map chain_lines].
    rewrite IH, app_nil_r by exact Hok. cbn [app]. reflexivity.
Qed.

(** X20: the report of a Benchmark that holds a single recording, made
    under a path of any length with at least one sample, is the header,
    the title of each segment of the path one level deeper than the one
    before, the statistics line below the last title, and the footer. *)
Theorem report_of_one_recording (description : list string) (measurement : Measurement)
  (this : Benchmark) :
  description <> [] ->
  Measurement.durations measurement <> [] ->
  incorporate description measurement new_Benchmark = (this, Ok tt) ->
  snd (report this)
  = join ([HEADER]
            ++ chain_lines 0 description (Measurement.durations measurement)
            ++ [FOOTER])%list newline.
Proof.
  intros Hpath Hsamples Hinc.
  rewrite incorporate_merge in Hinc by exact Hpath.
  assert (Hthis : this = fst (this, Ok tt : Result unit)) by reflexivity.
  assert (Hok : snd (addBenchmarkDurations (data new_Benchmark) description
                       (Measurement.durations measurement)) = Ok tt).
  { change (Ok tt : Result unit) with (snd (this, Ok tt : Result unit)).
    rewrite <- Hinc. reflexivity. }
  rewrite Hthis, <- Hinc. cbn [fst]. unfold report. cbn [data new_Benchmark] in *.
  rewrite !reportLevel_render, render_chain by assumption.
  destruct description as [|key rest]; [congruence|]. reflexivity.
Qed.

Lemma join_not_empty (first second : string) (rest : list string) (sep : string) :
  sep <> "" -> join (first :: second :: rest) sep <> "".
Proof.
  intros Hsep. unfold join. cbn [String.concat].
  apply append_not_empty. intros H.
  destruct sep; [congruence | discriminate].
Qed.

(** X21: the report is the empty string exactly when the tree has no
    entries, whatever the header and the footer are. *)
Theorem report_empty_iff (this : Benchmark) :
  snd (report this) = "" <-> entries (data this) = [].
Proof.
  split.
  - intros Hreport. unfold report in Hreport.
    rewrite !reportLevel_render in Hreport.
    destruct (render (data this) 0) as [|line lines] eqn:Hrender.
    + apply render_empty_iff in Hrender. exact Hrender.
    + cbn [length Nat.eqb snd app] in Hreport.
      exfalso. revert Hreport. apply join_not_empty. discriminate.
  - intros Hempty. unfold report. rewrite reportLevel_render.
    rewrite render_no_entries by exact Hempty. reflexivity.
Qed.

End ReportMore.

(** ** Overlapped mode with synchronous work *)

Section SynchronousFacts.

Context {S : Type}.

(** The computation has no suspension point. *)
Fixpoint synchronous {A : Type} (p : Async S A) : Prop :=
  match p with
  | Return _ => True
  | Throw _ => True
  | Get k => forall s, synchronous (k s)
  | Modify _ k => synchronous k
  | Await _ => False
  end.

Lemma resume_synchronous_bind {A B C : Type} (p : Async S A) (h : A -> Async S B)
  (g : B -> Async S C) (s : S) :
  synchronous p ->
  resume (bind (bind p h) g) s
  = match run p s with
    | (s', Ok a) => resume (bind (h a) g) s'
    | (s', Raise e) => (s', Throw e)
    end.
Proof.
  revert s. induction p as [a|e|k IH|f k IH|k IH]; intros s Hp; simpl in *; auto.
  contradiction.
Qed.

End SynchronousFacts.

Section OverlappedSynchronous.

Context {host : Host}.

Lemma synchronous_lift (fn : Work) :
  synchronous fn -> synchronous (lift fn : Async (Env * list R) unit).
Proof. induction fn as [a|e|k IH|f k IH|k IH]; simpl; auto. Qed.

(** What is left of an iteration started at [startTime] once the work
    has returned: read the clock, push the sample. *)
Definition finish (startTime : Instant) : Async (Env * list R) unit :=
  Get (fun st' => let '(durationSec, durationNano) := hrtime_since startTime (fst st') in
  Modify (fun st'' =>
            (fst st'', push (snd st'') (IZR durationSec * 1e3 + IZR durationNano / 1e6)))
    (Return tt)).

Lemma resume_finish (startTime : Instant) (env : Env) (acc : list R) :
  resume (finish startTime) (env, acc)
  = ((env, push acc (elapsed startTime env)), Return tt).
Proof.
  unfold finish, elapsed. cbn [resume fst].
  destruct (hrtime_since startTime env) as [sec nano]. reflexivity.
Qed.

Lemma run_finish (startTime : Instant) (env : Env) (acc : list R) :
  run (finish startTime) (env, acc) = ((env, push acc (elapsed startTime env)), Ok tt).
Proof.
  unfold finish, elapsed. cbn [run fst].
  destruct (hrtime_since startTime env) as [sec nano]. reflexivity.
Qed.

Lemma resume_iteration_synchronous (fn : Work) (options : MeasureOptions)
  (env : Env) (acc : list R) :
  synchronous fn -> never_fails fn ->
  beforeEach options = None -> afterEach options = None ->
  resume (iteration fn options) (env, acc)
  = ((fst (run fn env), acc), finish (hrtime env)).
Proof.
  intros Hsync Hok Hbefore Hafter. unfold iteration. rewrite Hbefore, Hafter.
  cbn [bind resume fst]. unfold await, maybePromise.
  rewrite resume_synchronous_bind by (apply synchronous_lift, Hsync).
  rewrite run_lift.
  destruct (run_adds (lift fn) 0 (env, acc) (adds_lift fn Hok))
    as (st' & [] & Hrun & _).
  rewrite run_lift in Hrun. injection Hrun as _ Hresult. rewrite Hresult.
  reflexivity.
Qed.

(** The clock readings with which [count] iterations start, each started
    in the state the one before has left. *)
Fixpoint start_instants (fn : Work) (count : nat) (env : Env) : list Instant :=
  match count with
  | O => []
  | Datatypes.S count' => hrtime env :: start_instants fn count' (fst (run fn env))
  end.

(** The host after [count] runs of the work. *)
Fixpoint after_runs (fn : Work) (count : nat) (env : Env) : Env :=
  match count with
  | O => env
  | Datatypes.S count' => after_runs fn count' (fst (run fn env))
  end.

Lemma start_all_synchronous (fn : Work) (options : MeasureOptions) (count : nat)
  (env : Env) (acc : list R) :
  synchronous fn -> never_fails fn ->
  beforeEach options = None -> afterEach options = None ->
  start_all (repeat (iteration fn options) count) (env, acc)
  = ((after_runs fn count env, acc), map finish (start_instants fn count env)).
Proof.
  intros Hsync Hok Hbefore Hafter. revert env.
  induction count as [|count IH]; intros env; [reflexivity|].
  cbn [repeat start_all].
  rewrite (resume_iteration_synchronous fn options env acc Hsync Hok Hbefore Hafter).
  rewrite IH. reflexivity.
Qed.

(** A pool whose members have all been started: [Some t] is still to read
    the clock, [None] has already pushed its sample. *)
Definition task_of (slot : option Instant) : Async (Env * list R) unit :=
  match slot with
  | Some startTime => finish startTime
  | None => Return tt
  end.

Fixpoint pending_samples (env : Env) (slots : list (option Instant)) : list R :=
  match slots with
  | [] => []
  | Some startTime :: rest => elapsed startTime env :: pending_samples env rest
  | None :: rest => pending_samples env rest
  end.

Lemma first_rejection_slots (slots : list (option Instant)) :
  first_rejection (map task_of slots) = None.
Proof. induction slots as [|[t|] slots IH]; simpl; auto. Qed.

Lemma run_each_slots (slots : list (option Instant)) (env : Env) (acc : list R) :
  run_each (map task_of slots) (env, acc)
  = ((env, acc ++ pending_samples env slots)%list, Ok tt).
Proof.
  revert acc. induction slots as [|[t|] slots IH]; intros acc; cbn [map run_each task_of].
  - simpl. rewrite app_nil_r. reflexivity.
  - rewrite run_finish, IH. unfold push. rewrite <- app_assoc. reflexivity.
  - cbn [run]. apply IH.
Qed.

Lemma resume_nth_slots (i : nat) (slots : list (option Instant)) (env : Env)
  (acc : list R) :
  exists slots' acc',
    resume_nth i (map task_of slots) (env, acc) = ((env, acc'), map task_of slots')
    /\ Permutation (acc' ++ pending_samples env slots')
                   (acc ++ pending_samples env slots).
Proof.
  revert i. induction slots as [|slot slots IH]; intros i; cbn [map resume_nth].
  - exists [], acc. split; reflexivity.
  - destruct i as [|i].
    + destruct slot as [t|]; cbn [task_of].
      * rewrite resume_finish. exists (None :: slots), (push acc (elapsed t env)).
        split; [reflexivity|]. unfold push. cbn [pending_samples].
        rewrite <- app_assoc. reflexivity.
      * cbn [resume]. exists (None :: slots), acc. split; reflexivity.
    + destruct (IH i) as (slots' & acc' & Hres & Hperm). rewrite Hres.
      exists (slot :: slots'), acc'. split; [reflexivity|].
      destruct slot as [t|]; cbn [pending_samples]; [|exact Hperm].
      rewrite <- !Permutation_middle. constructor. exact Hperm.
Qed.

Lemma settle_all_slots (schedule : list nat) (slots : list (option Instant))
  (env : Env) (acc : list R) :
  exists samples,
    settle_all schedule (map task_of slots) (env, acc) = ((env, samples), Ok tt)
    /\ Permutation samples (acc ++ pending_samples env slots).
Proof.
  revert slots acc. induction schedule as [|i schedule IH]; intros slots acc;
    cbn [settle_all]; rewrite first_rejection_slots.
  - rewrite run_each_slots. eexists. split; reflexivity.
  - destruct (resume_nth_slots (i mod length (map task_of slots)) slots env acc)
      as (slots' & acc' & Hres & Hperm).
    rewrite Hres. destruct (IH slots' acc') as (samples & Hsettle & Hperm').
    exists samples. split; [exact Hsettle|].
    rewrite Hperm'. exact Hperm.
Qed.

Lemma pending_samples_all (env : Env) (starts : list Instant) :
  pending_samples env (map Some starts) = map (fun t => elapsed t env) starts.
Proof. induction starts as [|t starts IH]; simpl; [|rewrite IH]; reflexivity. Qed.

(** X22: overlapped mode with work that has no suspension point and does
    not fail, and no hooks.  All iterations run first, one after the other;
    the clock is read for an iteration only when it is resumed afterwards.
    So, for every order of resumption, the samples are, up to their order,
    the times from the start of each iteration to the end of the last one,
    not the times of the single runs. *)
Theorem measure_overlapped_synchronous (fn : Work) (options : PartialMeasureOptions)
  (schedule : list nat) (env : Env) :
  let mergedOptions := spread defaultMeasureOptions options in
  let count := Z.to_nat (iterations mergedOptions) in
  let final := after_runs fn count env in
  synchronous fn -> never_fails fn ->
  serial mergedOptions = false ->
  beforeEach mergedOptions = None -> afterEach mergedOptions = None ->
  exists samples,
    Permutation samples (map (fun t => elapsed t final) (start_instants fn count env))
    /\ measure fn options schedule env
       = match Measurement.new samples with
         | Raise e => (final, Raise e)
         | Ok measurement => (final, verdict measurement mergedOptions)
         end.
Proof.
  intros mergedOptions count final Hsync Hok Hserial Hbefore Hafter.
  unfold measure. fold mergedOptions. cbv zeta. fold count. rewrite Hserial.
  unfold promise_all.
  rewrite (start_all_synchronous fn mergedOptions count env [] Hsync Hok Hbefore Hafter).
  fold final.
  replace (map finish (start_instants fn count env))
    with (map task_of (map Some (start_instants fn count env)))
    by (rewrite map_map; reflexivity).
  destruct (settle_all_slots schedule (map Some (start_instants fn count env)) final [])
    as (samples & Hsettle & Hperm).
  rewrite Hsettle. exists samples. split.
  - rewrite Hperm, pending_samples_all. reflexivity.
  - unfold verdict. destruct (Measurement.new samples) as [measurement|e]; [|reflexivity].
    destruct (verifyMeasurement measurement mergedOptions); reflexivity.
Qed.

End OverlappedSynchronous.

(** ** One iteration *)

Section SingleIteration.

Context {S : Type}.

Lemma run_resume {A : Type} (p : Async S A) (s : S) :
  run p s = run (snd (resume p s)) (fst (resume p s)).
Proof.
  revert s. induction p as [a|e|k IH|f k IH|k IH]; intros s; simpl; auto.
Qed.

Definition settled (outcome : S * Result unit) : S * Result unit :=
  match outcome with
  | (s', Ok _) => (s', Ok tt)
  | (s', Raise e) => (s', Raise e)
  end.

Lemma settle_all_single (schedule : list nat) (p : Async S unit) (s : S) :
  settle_all schedule [p] s = settled (run p s).
Proof.
  revert p s. induction schedule as [|i schedule IH]; intros p s; cbn [settle_all].
  - destruct p; cbn [first_rejection run_each]; try reflexivity;
      match goal with
      | |- context [run ?q s] => destruct (run q s) as [s' [[]|e]]; reflexivity
      end.
  - assert (Hstep : settle_all schedule (snd (resume_nth (i mod 1) [p] s))
                      (fst (resume_nth (i mod 1) [p] s)) = settled (run p s)).
    { rewrite Nat.mod_1_r. cbn [resume_nth].
      destruct (resume p s) as [s' p'] eqn:Hres. cbn [fst snd].
      rewrite IH, (run_resume p s), Hres. reflexivity. }
    destruct p; cbn [first_rejection length];
      try (destruct (resume_nth (i mod 1) _ s) as [s' pool'] eqn:Hnth;
           cbn [fst snd] in Hstep; exact Hstep).
    pose proof (keep_running_repeat_throw e 1 (i :: schedule) s) as Hkeep.
    cbn [repeat] in Hkeep. cbn [run settled]. f_equal. exact Hkeep.
Qed.

Lemma promise_all_single (schedule : list nat) (p : Async S unit) (s : S) :
  promise_all schedule [p] s = settled (run p s).
Proof.
  unfold promise_all. cbn [start_all].
  destruct (resume p s) as [s' p'] eqn:Hres.
  rewrite settle_all_single, (run_resume p s), Hres. reflexivity.
Qed.

Lemma run_serially_single (p : Async S unit) (s : S) :
  run (serially [p]) s = settled (run p s).
Proof.
  cbn [serially]. rewrite run_bind, run_await.
  destruct (run p s) as [s' [[]|e]]; reflexivity.
Qed.

End SingleIteration.

Section SingleIterationOfMeasure.

Context {host : Host}.

(** The caller's options with the key [serial] set. *)
Definition set_serial' (options : PartialMeasureOptions) (b : bool)
  : PartialMeasureOptions :=
  {| iterations' := iterations' options;
     serial' := Some b;
     meanUnder' := meanUnder' options;
     minUnder' := minUnder' options;
     maxUnder' := maxUnder' options;
     marginOfErrorUnder' := marginOfErrorUnder' options;
     standardDeviationUnder' := standardDeviationUnder' options;
     beforeEach' := beforeEach' options;
     afterEach' := afterEach' options;
     verify' := verify' options |}.

(** X23: with a single iteration the two modes are the same: for every
    work, every hook and every order of resumption, measure with [serial]
    false ends in the same host state with the same Measurement or error as
    with [serial] true. *)
Theorem measure_single_iteration (fn : Work) (options : PartialMeasureOptions)
  (schedule : list nat) (env : Env) :
  iterations (spread defaultMeasureOptions options) = 1%Z ->
  measure fn (set_serial' options false) schedule env
  = measure fn (set_serial' options true) schedule env.
Proof.
  intros Hone. unfold measure. cbv zeta.
  change (iterations (spread defaultMeasureOptions (set_serial' options false)))
    with (iterations (spread defaultMeasureOptions options)).
  change (iterations (spread defaultMeasureOptions (set_serial' options true)))
    with (iterations (spread defaultMeasureOptions options)).
  rewrite Hone. cbn [serial spread set_serial' serial' or_else].
  change (Z.to_nat 1) with 1%nat. cbn [repeat].
  rewrite promise_all_single, run_serially_single.
  reflexivity.
Qed.

End SingleIterationOfMeasure.

(** * Examples

    A host whose state is the clock, in nanoseconds; numbers print as a
    placeholder. *)

Definition example_host : Host :=
  {| Env := Z;
     Instant := Z;
     hrtime := fun now => now;
     hrtime_since := fun start now =>
       ((now - start) / 1000000000, (now - start) mod 1000000000)%Z;
     number_to_string := fun _ => "#";
     mathjs_round := fun value _ => value;
     HEADER := "- - - - - - - - Performance - - - - - - - -";
     FOOTER := "- - - - - - - - - - - - - - - - - - - - - -" |}.

#[local] Existing Instance example_host.

(** Synchronous work of two milliseconds. *)
Definition two_milliseconds : Work :=
  Modify (fun now => now + 2000000)%Z (Return tt).

(** Work that takes one millisecond, gives back a promise and needs one
    more millisecond to settle it. *)
Definition promised : Work :=
  Modify (fun now => now + 1000000)%Z
    (Await (Modify (fun now => now + 1000000)%Z (Return tt))).

Definition example_options (count : Z) (one_by_one : bool) (limit : option R)
  : PartialMeasureOptions :=
  {| iterations' := Some count; serial' := Some one_by_one; meanUnder' := None;
     minUnder' := None; maxUnder' := limit; marginOfErrorUnder' := None;
     standardDeviationUnder' := None; beforeEach' := None; afterEach' := None;
     verify' := None |}.

Definition thresholds (mean_limit min_limit : option R) : MeasureOptions :=
  {| iterations := 100; serial := true; meanUnder := mean_limit; minUnder := min_limit;
     maxUnder := None; marginOfErrorUnder := None; standardDeviationUnder := None;
     beforeEach := None; afterEach := None; verify := true |}.

(** The sample of two milliseconds as measure computes it. *)
Definition two_ms : R := IZR 0 * 1e3 + IZR 2000000 / 1e6.

Example measure_serial :
  measure two_milliseconds (example_options 2 true None) [] 0%Z
  = (4000000%Z, Ok (Measurement.make [two_ms; two_ms])).
Proof. reflexivity. Qed.

(** Two overlapping iterations: both start before either is resumed, and
    the second started is resumed first. *)
Example measure_overlapped :
  measure promised (example_options 2 false None) [1%nat; 0%nat] 0%Z
  = (4000000%Z,
     Ok (Measurement.make [IZR 0 * 1e3 + IZR 4000000 / 1e6;
                           IZR 0 * 1e3 + IZR 3000000 / 1e6])).
Proof. reflexivity. Qed.

(** Work that takes one millisecond, gives back a promise and fails one
    millisecond later. *)
Definition failing_later : Work :=
  Modify (fun now => now + 1000000)%Z
    (Await (Modify (fun now => now + 1000000)%Z (Throw (Thrown "boom")))).

(** Two overlapping iterations of which the first resumed fails: the other
    one is not stopped, and runs on when it is resumed. *)
Example measure_overlapped_failure :
  measure failing_later (example_options 2 false None) [0%nat] 0%Z
  = (3000000%Z, Raise (Thrown "boom"))
  /\ measure failing_later (example_options 2 false None) [0%nat; 1%nat] 0%Z
     = (4000000%Z, Raise (Thrown "boom")).
Proof. split; reflexivity. Qed.

Lemma mean_of_fives : Measurement.mean (Measurement.make [5; 5]) = 5.
Proof. unfold Measurement.mean, mathjs.mean, mathjs.sum. simpl. lra. Qed.

Lemma verifyMeasurement_first_exceeded_witness :
  verifyMeasurement (Measurement.make [5; 5]) (thresholds (Some 4) (Some 1))
  = Raise (PerformanceError
             ("Mean time of "
                ++ number_to_string (Measurement.mean (Measurement.make [5; 5]))
                ++ " ms exceeded threshold of " ++ number_to_string 4 ++ " ms"))
  /\ verifyMeasurement (Measurement.make [5; 5]) (thresholds (Some 6) None) = Ok tt.
Proof.
  split.
  - apply (proj2 (proj2 (verifyMeasurement_first_exceeded
                           (Measurement.make [5; 5]) (thresholds (Some 4) (Some 1))))
             eq_refl [] Mean [Minimum; Maximum; MarginOfError; StandardDeviation] 4).
    + reflexivity.
    + intros s' [].
    + reflexivity.
    + change (Measurement.mean (Measurement.make [5; 5]) > 4).
      rewrite mean_of_fives. lra.
  - apply (proj1 (proj2 (verifyMeasurement_first_exceeded
                           (Measurement.make [5; 5]) (thresholds (Some 6) None)))
             eq_refl).
    intros s Hs (t & Ht & Hgt).
    destruct s; simpl in Ht; try discriminate.
    injection Ht as <-. simpl in Hgt. rewrite mean_of_fives in Hgt. lra.
Defined.

(** A recording under A, B whose only sample is above the limit of one
    millisecond. *)
Definition over_the_limit : RecordArguments :=
  Described (Path ["A"; "B"]) two_milliseconds (Some (example_options 1 true (Some 1))).

Lemma two_ms_value : two_ms = 2.
Proof. unfold two_ms. lra. Qed.

Lemma two_ms_above_one :
  verifyMeasurement (Measurement.make [two_ms])
    (with_verify (options_of over_the_limit) true)
  = Raise (exceeded "Maximum" two_ms 1).
Proof.
  unfold verifyMeasurement, check. simpl.
  change (Measurement.max (Measurement.make [two_ms])) with two_ms.
  destruct (Rgt_dec two_ms 1) as [|Hle]; [reflexivity|].
  exfalso. apply Hle. rewrite two_ms_value. lra.
Qed.

Lemma record_emits_once_witness :
  well_described over_the_limit
  /\ ordinary (path_of over_the_limit)
  /\ measure (work_of over_the_limit)
       (as_partial (with_verify (options_of over_the_limit) false)) [] 0%Z
     = (2000000%Z, Ok (Measurement.make [two_ms]))
  /\ events (fst (fst (record over_the_limit [] new_Benchmark 0%Z)))
     = [{| event_description := ["A"; "B"];
           event_measurement := Measurement.make [two_ms];
           event_data := Object [("A", mkInfo []
                                         (Object [("B", mkInfo [two_ms] (Object []))]))] |}]
  /\ snd (record over_the_limit [] new_Benchmark 0%Z)
     = Raise (exceeded "Maximum" two_ms 1).
Proof.
  assert (Hwell : well_described over_the_limit) by (simpl; discriminate).
  assert (Hordinary : ordinary (path_of over_the_limit))
    by (repeat constructor).
  assert (Hmeasure :
    measure (work_of over_the_limit)
      (as_partial (with_verify (options_of over_the_limit) false)) [] 0%Z
    = (2000000%Z, Ok (Measurement.make [two_ms]))) by reflexivity.
  destruct (record_emits_once over_the_limit [] new_Benchmark 0%Z 2000000%Z
              (Measurement.make [two_ms]) Hwell Hordinary Hmeasure)
    as (Hdata & Hevents & Hresult).
  split; [exact Hwell|]. split; [exact Hordinary|]. split; [exact Hmeasure|]. split.
  - rewrite Hevents, Hdata. reflexivity.
  - rewrite Hresult. rewrite two_ms_above_one. reflexivity.
Defined.

(** A call with the empty description and a call whose work fails end
    without any event. *)
Lemma record_without_event :
  events (fst (fst (record (Described (Text "") two_milliseconds None) []
                      new_Benchmark 0%Z))) = []
  /\ events (fst (fst (record (Bare (Throw (Thrown "boom")) None) []
                         new_Benchmark 0%Z))) = [].
Proof. split; reflexivity. Qed.

Lemma tree_merge_witness :
  ordinary ["A"; "B"]
  /\ samples_at (fst (addBenchmarkDurations (Object []) ["A"; "B"] [1; 2])) ["A"; "B"]
     = [1; 2]
  /\ samples_at (fst (addBenchmarkDurations (Object []) ["A"; "B"] [1; 2])) ["A"] = []
  /\ then_incorporate
       (incorporate ["A"; "B"] (Measurement.make [1; 2]) new_Benchmark)
       ["A"] (Measurement.make [3])
     = then_incorporate
         (incorporate ["A"] (Measurement.make [3]) new_Benchmark)
         ["A"; "B"] (Measurement.make [1; 2])
  /\ addBenchmarkDurations (Object []) ["toString"] [1; 2] = (Object [], Raise TypeError).
Proof.
  destruct tree_merge as (Hmerge & Hboth & Hblocked & _).
  assert (Hpath : ["A"; "B"] <> (@nil string)) by discriminate.
  assert (Hordinary : ordinary ["A"; "B"]) by (repeat constructor).
  destruct (Hmerge (Object []) ["A"; "B"] [1; 2] Hpath Hordinary) as (_ & _ & Hsamples).
  split; [exact Hordinary|]. split; [|split; [|split]].
  - rewrite Hsamples. reflexivity.
  - rewrite Hsamples. reflexivity.
  - assert (Hab : Measurement.durations (Measurement.make [1; 2]) <> []) by discriminate.
    assert (Ha : Measurement.durations (Measurement.make [3]) <> []) by discriminate.
    destruct (Hboth new_Benchmark (Measurement.make [1; 2]) (Measurement.make [3]) Hab Ha)
      as (final & node_a & node_b & Hfirst & Hsecond & _).
    rewrite Hfirst, Hsecond. reflexivity.
  - apply (Hblocked (Object []) "toString" [] [1; 2]); reflexivity.
Defined.

(** The tree whose only node is x, with the samples 1, 2, 3. *)
Definition only_x : Benchmark :=
  {| data := Object [("x", mkInfo [1; 2; 3] (Object []))]; events := [] |}.

(** The tree after a merge under b and a merge under 1. *)
Definition b_then_1 : BenchmarkData :=
  fst (addBenchmarkDurations (fst (addBenchmarkDurations (Object []) ["b"] [1])) ["1"] [2]).

Lemma report_layout_witness :
  snd (report new_Benchmark) = ""
  /\ snd (report only_x)
     = text_of [HEADER; "x:"; statistics_line 0 [1; 2; 3]; FOOTER]
  /\ well_listed b_then_1
  /\ keys b_then_1 = ["1"; "b"].
Proof.
  destruct report_layout as (Hempty & Hfull & _ & Hnew & Hkept & _).
  split; [|split; [|split]].
  - apply (Hempty new_Benchmark). reflexivity.
  - rewrite (Hfull only_x) by discriminate. reflexivity.
  - apply (Hkept _ ["1"] [2]), (Hkept _ ["b"] [1]), Hnew.
  - reflexivity.
Defined.

(** The key 1 came in after the key b and is reported before it. *)
Lemma report_lists_indices_first :
  reportLevel b_then_1 0
  = ["1:"; "  # ms (+/- # ms) from # iterations";
     "b:"; "  # ms (+/- # ms) from # iterations"].
Proof. reflexivity. Qed.

Lemma measure_sample_count_witness :
  exists env' measurement,
    Z.of_nat (length (Measurement.durations measurement)) = 2%Z
    /\ measure promised (example_options 2 false (Some 1)) [1%nat; 0%nat] 0%Z
       = (env', match verifyMeasurement measurement
                        (spread defaultMeasureOptions (example_options 2 false (Some 1))) with
                | Ok _ => Ok measurement
                | Raise e => Raise e
                end).
Proof.
  destruct (measure_sample_count promised (example_options 2 false (Some 1))
              [1%nat; 0%nat] 0%Z 2%Z) as (env' & measurement & Hcount & Hresult & _).
  - lia.
  - reflexivity.
  - exact I.
  - split; intros hook Hhook; discriminate Hhook.
  - exists env', measurement. split; [exact Hcount | exact Hresult].
Defined.

Lemma record_without_description_witness :
  measure two_milliseconds
    (as_partial (with_verify
       (spread defaultMeasureOptions
          (or_else (Some (example_options 1 true (Some 1))) no_options)) false)) [] 0%Z
  = (2000000%Z, Ok (Measurement.make [two_ms]))
  /\ data (fst (fst (record (Bare two_milliseconds (Some (example_options 1 true (Some 1))))
                       [] only_x 0%Z)))
     = data only_x.
Proof.
  assert (Hmeasure :
    measure two_milliseconds
      (as_partial (with_verify
         (spread defaultMeasureOptions
            (or_else (Some (example_options 1 true (Some 1))) no_options)) false)) [] 0%Z
    = (2000000%Z, Ok (Measurement.make [two_ms]))) by reflexivity.
  split; [exact Hmeasure|].
  apply (record_without_description two_milliseconds
           (Some (example_options 1 true (Some 1))) [] only_x 0%Z 2000000%Z
           (Ok (Measurement.make [two_ms])) Hmeasure).
Defined.

Lemma empty_measurement_rejected_witness :
  measure two_milliseconds (example_options 0 false None) [3%nat] 0%Z
  = (0%Z, Raise (Error "The list of durations must not be empty")).
Proof.
  apply (proj2 (empty_measurement_rejected two_milliseconds
                  (example_options 0 false None) [3%nat] 0%Z)).
  reflexivity.
Defined.

(** ** Examples for the further properties *)

Lemma extrema_are_samples_witness :
  Measurement.durations (Measurement.make [3; 1; 2]) <> []
  /\ In (Measurement.min (Measurement.make [3; 1; 2])) [3; 1; 2]
  /\ In (Measurement.max (Measurement.make [3; 1; 2])) [3; 1; 2].
Proof.
  assert (H : Measurement.durations (Measurement.make [3; 1; 2]) <> [])
    by (simpl; discriminate).
  destruct (extrema_are_samples (Measurement.make [3; 1; 2]) H) as (Hmin & Hmax & _).
  split; [exact H|]. split; [exact Hmin | exact Hmax].
Defined.

Lemma fives_pass_below_six :
  verifyMeasurement (Measurement.make [5; 5]) (thresholds (Some 6) None) = Ok tt.
Proof.
  unfold verifyMeasurement, check. simpl.
  destruct (Rgt_dec (Measurement.mean (Measurement.make [5; 5])) 6) as [Hgt|];
    [|reflexivity].
  rewrite mean_of_fives in Hgt. lra.
Qed.

Lemma verification_sound_witness :
  verifyMeasurement (Measurement.make [5; 5]) (thresholds (Some 6) None) = Ok tt
  /\ Measurement.mean (Measurement.make [5; 5]) <= 6.
Proof.
  split; [exact fives_pass_below_six|].
  apply (proj1 (verification_sound (Measurement.make [5; 5]) (thresholds (Some 6) None))
           fives_pass_below_six eq_refl Mean 6 eq_refl).
Defined.

Lemma verification_monotone_witness :
  looser (thresholds (Some 6) None) (thresholds (Some 7) None)
  /\ verifyMeasurement (Measurement.make [5; 5]) (thresholds (Some 7) None) = Ok tt.
Proof.
  assert (H : looser (thresholds (Some 6) None) (thresholds (Some 7) None)).
  { split; [reflexivity|]. intros s t' Ht'.
    destruct s; simpl in Ht'; try discriminate.
    injection Ht' as <-. exists 6. split; [reflexivity | lra]. }
  split; [exact H|].
  apply (verification_monotone (Measurement.make [5; 5])
           (thresholds (Some 6) None) (thresholds (Some 7) None) H fives_pass_below_six).
Defined.

Lemma measure_returns_all_samples_witness :
  measure promised (example_options 2 false None) [1%nat; 0%nat] 0%Z
  = (4000000%Z,
     Ok (Measurement.make [IZR 0 * 1e3 + IZR 4000000 / 1e6;
                           IZR 0 * 1e3 + IZR 3000000 / 1e6]))
  /\ Z.of_nat (length [IZR 0 * 1e3 + IZR 4000000 / 1e6;
                       IZR 0 * 1e3 + IZR 3000000 / 1e6]) = 2%Z.
Proof.
  split; [reflexivity|].
  apply (measure_returns_all_samples promised (example_options 2 false None)
           [1%nat; 0%nat] 0%Z 4000000%Z
           (Measurement.make [IZR 0 * 1e3 + IZR 4000000 / 1e6;
                              IZR 0 * 1e3 + IZR 3000000 / 1e6]) eq_refl).
Defined.

Lemma measure_without_iterations_witness :
  (iterations (spread defaultMeasureOptions (example_options (-3) true None)) <= 0)%Z
  /\ measure two_milliseconds (example_options (-3) true None) [] 7%Z
     = (7%Z, Raise (Error "The list of durations must not be empty")).
Proof.
  assert (H : (iterations (spread defaultMeasureOptions
                             (example_options (-3) true None)) <= 0)%Z)
    by (simpl; lia).
  split; [exact H|].
  apply (measure_without_iterations two_milliseconds (example_options (-3) true None)
           [] 7%Z H).
Defined.

(** Work that takes one millisecond and then throws. *)
Definition failing : Work :=
  Modify (fun now => now + 1000000)%Z (Throw (Thrown "boom")).

Lemma measure_serial_loop_witness :
  serial (spread defaultMeasureOptions (example_options 3 true None)) = true
  /\ measure failing (example_options 3 true None) [] 0%Z
     = (1000000%Z, Raise (Thrown "boom")).
Proof.
  split; [reflexivity|].
  rewrite (measure_serial_loop failing (example_options 3 true None) [] 0%Z eq_refl).
  reflexivity.
Defined.

Lemma measure_serial_fails_fast_witness :
  run failing 0%Z = (1000000%Z, Raise (Thrown "boom"))
  /\ measure failing (example_options 3 true None) [] 0%Z
     = (1000000%Z, Raise (Thrown "boom")).
Proof.
  split; [reflexivity|].
  apply (measure_serial_fails_fast failing (example_options 3 true None) [] 0%Z 0%Z
           1000000%Z (Thrown "boom")); [reflexivity | simpl; lia | reflexivity | reflexivity].
Defined.

Lemma measure_failing_work_witness :
  measure failing (example_options 3 false None) [] 0%Z
  = (3000000%Z, Raise (Thrown "boom"))
  /\ measure failing (example_options 3 true None) [] 0%Z
     = (1000000%Z, Raise (Thrown "boom")).
Proof.
  split.
  - rewrite (measure_failing_work failing (example_options 3 false None) [] 0%Z
               (Thrown "boom")); [reflexivity | reflexivity | reflexivity | simpl; lia].
  - rewrite (measure_failing_work failing (example_options 3 true None) [] 0%Z
               (Thrown "boom")); [reflexivity | reflexivity | reflexivity | simpl; lia].
Defined.

Lemma record_agrees_with_measure_witness :
  well_described over_the_limit
  /\ ordinary (path_of over_the_limit)
  /\ snd (record over_the_limit [] new_Benchmark 0%Z)
     = snd (measure (work_of over_the_limit)
              (as_partial (with_verify (options_of over_the_limit) true)) [] 0%Z).
Proof.
  assert (H : well_described over_the_limit) by (simpl; discriminate).
  assert (Hordinary : ordinary (path_of over_the_limit)) by (repeat constructor).
  split; [exact H|]. split; [exact Hordinary|].
  exact (f_equal snd
           (record_agrees_with_measure over_the_limit [] new_Benchmark 0%Z H Hordinary)).
Defined.

Lemma record_failure_keeps_benchmark_witness :
  record (Described (Path []) two_milliseconds None) [] only_x 0%Z
  = ((only_x, 0%Z), Raise (Error "The description must not be empty"))
  /\ record (Described (Text "x") failing None) [] only_x 0%Z
     = ((only_x, 1000000%Z), Raise (Thrown "boom")).
Proof.
  split.
  - apply (proj1 (record_failure_keeps_benchmark
                    (Described (Path []) two_milliseconds None) [] only_x 0%Z)).
    simpl. intros H. apply H. reflexivity.
  - apply (proj2 (record_failure_keeps_benchmark
                    (Described (Text "x") failing None) [] only_x 0%Z)).
    + simpl. discriminate.
    + reflexivity.
Defined.

(** A recording under x whose only sample is below the limit of three
    milliseconds. *)
Definition within_the_limit : RecordArguments :=
  Described (Text "x") two_milliseconds (Some (example_options 1 true (Some 3))).

Lemma record_within_the_limit :
  record within_the_limit [] new_Benchmark 0%Z
  = (({| data := Object [("x", mkInfo [two_ms] (Object []))];
         events := [{| event_description := ["x"];
                       event_measurement := Measurement.make [two_ms];
                       event_data := Object [("x", mkInfo [two_ms] (Object []))] |}] |},
      2000000%Z),
     Ok (Measurement.make [two_ms])).
Proof.
  rewrite (record_after_measure within_the_limit [] new_Benchmark 0%Z 2000000%Z
             (Measurement.make [two_ms])); [|simpl; discriminate | reflexivity].
  assert (Hpass : verifyMeasurement (Measurement.make [two_ms])
                    (with_verify (options_of within_the_limit) true) = Ok tt).
  { unfold verifyMeasurement, check. simpl.
    change (Measurement.max (Measurement.make [two_ms])) with two_ms.
    destruct (Rgt_dec two_ms 3) as [Hgt|]; [|reflexivity].
    rewrite two_ms_value in Hgt. lra. }
  rewrite Hpass. reflexivity.
Qed.

Lemma record_result_meets_thresholds_witness :
  record within_the_limit [] new_Benchmark 0%Z
  = (({| data := Object [("x", mkInfo [two_ms] (Object []))];
         events := [{| event_description := ["x"];
                       event_measurement := Measurement.make [two_ms];
                       event_data := Object [("x", mkInfo [two_ms] (Object []))] |}] |},
      2000000%Z),
     Ok (Measurement.make [two_ms]))
  /\ Measurement.max (Measurement.make [two_ms]) <= 3.
Proof.
  split; [exact record_within_the_limit|].
  apply (proj1 (record_result_meets_thresholds within_the_limit [] new_Benchmark _
                  0%Z 2000000%Z (Measurement.make [two_ms]) record_within_the_limit)
           Maximum 3 eq_refl).
Defined.

Lemma unique_keys_kept_witness :
  unique_keys (data only_x)
  /\ unique_keys (fst (addBenchmarkDurations (data only_x) ["x"; "y"] [4])).
Proof.
  assert (H : unique_keys (data only_x)).
  { apply (proj1 (proj2 unique_keys_kept) (Object []) ["x"] [1; 2; 3]).
    exact (proj1 unique_keys_kept). }
  split; [exact H|].
  apply (proj1 (proj2 unique_keys_kept) (data only_x) ["x"; "y"] [4] H).
Defined.

Lemma merges_commute_witness :
  ["x"] <> ["x"; "y"]
  /\ samples_at
       (fst (addBenchmarkDurations (fst (addBenchmarkDurations (Object []) ["x"] [1]))
               ["x"; "y"] [2])) ["x"]
     = samples_at
         (fst (addBenchmarkDurations
                 (fst (addBenchmarkDurations (Object []) ["x"; "y"] [2])) ["x"] [1]))
         ["x"].
Proof.
  assert (H : ["x"] <> ["x"; "y"]) by discriminate.
  split; [exact H|].
  apply (merges_commute (Object []) ["x"] ["x"; "y"] [1] [2] ["x"]);
    [discriminate | discriminate | exact H].
Defined.

Lemma report_of_one_recording_witness :
  incorporate ["nested"; "description"] (Measurement.make [1; 2]) new_Benchmark
  = ({| data := Object [("nested",
                         mkInfo [] (Object [("description", mkInfo [1; 2] (Object []))]))];
        events := [] |}, Ok tt)
  /\ snd (report {| data := Object [("nested",
                                     mkInfo [] (Object [("description",
                                                         mkInfo [1; 2] (Object []))]))];
                    events := [] |})
     = join [HEADER; "nested:"; "  description:"; statistics_line 1 [1; 2]; FOOTER] newline.
Proof.
  split; [reflexivity|].
  rewrite (report_of_one_recording ["nested"; "description"] (Measurement.make [1; 2]));
    [reflexivity | discriminate | simpl; discriminate | reflexivity].
Defined.

Lemma measure_overlapped_synchronous_witness :
  synchronous two_milliseconds
  /\ exists samples,
       Permutation samples [IZR 0 * 1e3 + IZR 4000000 / 1e6;
                            IZR 0 * 1e3 + IZR 2000000 / 1e6]
       /\ fst (measure two_milliseconds (example_options 2 false None) [1%nat] 0%Z)
          = 4000000%Z.
Proof.
  assert (Hsync : synchronous two_milliseconds) by exact I.
  split; [exact Hsync|].
  destruct (measure_overlapped_synchronous two_milliseconds
              (example_options 2 false None) [1%nat] 0%Z Hsync I eq_refl eq_refl eq_refl)
    as (samples & Hperm & Hmeasure).
  exists samples. split; [exact Hperm|].
  rewrite Hmeasure. destruct (Measurement.new samples); reflexivity.
Defined.


Lemma measure_single_iteration_witness :
  iterations (spread defaultMeasureOptions (example_options 1 true None)) = 1%Z
  /\ measure promised (set_serial' (example_options 1 true None) false) [5%nat; 2%nat] 0%Z
     = measure promised (set_serial' (example_options 1 true None) true) [5%nat; 2%nat] 0%Z.
Proof.
  split; [reflexivity|].
  apply (measure_single_iteration promised (example_options 1 true None)
           [5%nat; 2%nat] 0%Z eq_refl).
Defined.

